(** * file-force: the tag cryptography (libcrypto) and the harvester

    A shallow embedding of the repository's [LibCrypto] class (symmetric
    cipher envelope, ECDH, HKDF key strengthening, ECDSA sign / recover), of
    the harvester script that turns ledger events into [pull] requests, and
    of the redundant retrieval it drives.

    JavaScript values are modelled by a small tagged union, exceptions by a
    completion type, and the two process-wide effects the code relies on
    (the entropy consumed by [crypto.randomBytes] and the lines written to
    the console) by explicit state passing.  The primitives of Node's
    [crypto] module that the default paths reach (AES in counter mode,
    SHA-256, HMAC) are written out from their standards, so that every
    function below evaluates on concrete inputs. *)

From Stdlib Require Import ZArith NArith List String Ascii Bool Lia.
From Stdlib Require Import Strings.Byte.
Import ListNotations.

Set Implicit Arguments.

(* ================================================================== *)
(** ** Bytes and buffers *)

Definition Buffer := list byte.

Definition byte_of_N (n : N) : byte :=
  match Byte.of_N (n mod 256) with
  | Some b => b
  | None => x00
  end.

Definition bits8 : Type :=
  (bool * (bool * (bool * (bool * (bool * (bool * (bool * bool)))))))%type.

Definition xor_bits (a b : bits8) : bits8 :=
  let '(a0, (a1, (a2, (a3, (a4, (a5, (a6, a7))))))) := a in
  let '(b0, (b1, (b2, (b3, (b4, (b5, (b6, b7))))))) := b in
  (xorb a0 b0, (xorb a1 b1, (xorb a2 b2, (xorb a3 b3,
  (xorb a4 b4, (xorb a5 b5, (xorb a6 b6, xorb a7 b7))))))).

Definition byte_xor (a b : byte) : byte :=
  Byte.of_bits (xor_bits (Byte.to_bits a) (Byte.to_bits b)).

(** Big-endian reading of a buffer, as [new BN(buffer)] does. *)
Definition N_of_bytes (b : Buffer) : N :=
  fold_left (fun acc x => (acc * 256 + Byte.to_N x)%N) b 0%N.

(** The [len] low-order bytes of [n], most significant first. *)
Fixpoint bytes_of_N (len : nat) (n : N) : Buffer :=
  match len with
  | O => []
  | S k => bytes_of_N k (n / 256) ++ [byte_of_N n]
  end.

(* ------------------------------------------------------------------ *)
(** *** Hexadecimal: [buf.toString('hex')] and [new Buffer(str, 'hex')] *)

Definition hex_digit (n : N) : ascii :=
  nth (N.to_nat n)
      (list_ascii_of_string "0123456789abcdef") "0"%char.

Definition hex_value (c : ascii) : option N :=
  let n := N_of_ascii c in
  if ((48 <=? n) && (n <=? 57))%N then Some (n - 48)%N
  else if ((97 <=? n) && (n <=? 102))%N then Some (n - 87)%N
  else if ((65 <=? n) && (n <=? 70))%N then Some (n - 55)%N
  else None.

Fixpoint toString_hex (b : Buffer) : string :=
  match b with
  | [] => EmptyString
  | x :: rest =>
      String (hex_digit (Byte.to_N x / 16))
             (String (hex_digit (Byte.to_N x mod 16)) (toString_hex rest))
  end.

(** Node decodes pairs of digits and stops at the first pair that is not
    hexadecimal; a trailing single character is dropped. *)
Fixpoint hex_decode (s : string) : Buffer :=
  match s with
  | String c1 (String c2 rest) =>
      match hex_value c1, hex_value c2 with
      | Some h, Some l => byte_of_N (16 * h + l) :: hex_decode rest
      | _, _ => []
      end
  | _ => []
  end.

(* ------------------------------------------------------------------ *)
(** *** UTF-8, Latin-1 and UTF-16: [new Buffer(str)] and friends

    A JavaScript string is modelled by a [string] whose characters are the
    code points U+0000 .. U+00FF. *)

Definition utf8_char (c : ascii) : Buffer :=
  let n := N_of_ascii c in
  if (n <? 128)%N then [byte_of_N n]
  else [byte_of_N (192 + n / 64); byte_of_N (128 + n mod 64)].

Definition utf8_encode (s : string) : Buffer :=
  flat_map utf8_char (list_ascii_of_string s).

Definition latin1_encode (s : string) : Buffer :=
  map (fun c => byte_of_N (N_of_ascii c)) (list_ascii_of_string s).

Definition ascii_encode (s : string) : Buffer :=
  map (fun c => byte_of_N (N_of_ascii c)) (list_ascii_of_string s).

Definition utf16le_encode (s : string) : Buffer :=
  flat_map (fun c => [byte_of_N (N_of_ascii c); x00]) (list_ascii_of_string s).

(* ------------------------------------------------------------------ *)
(** *** Base64: [new Buffer(str, 'base64')]

    Node's decoder is lenient: characters outside the alphabet are skipped
    and decoding stops at the first padding character. *)

Definition base64_value (c : ascii) : option N :=
  let n := N_of_ascii c in
  if ((65 <=? n) && (n <=? 90))%N then Some (n - 65)%N
  else if ((97 <=? n) && (n <=? 122))%N then Some (n - 71)%N
  else if ((48 <=? n) && (n <=? 57))%N then Some (n + 4)%N
  else if ((n =? 43) || (n =? 45))%N then Some 62%N
  else if ((n =? 47) || (n =? 95))%N then Some 63%N
  else None.

Fixpoint base64_sextets (cs : list ascii) : list N :=
  match cs with
  | [] => []
  | c :: rest =>
      if (N_of_ascii c =? 61)%N then []
      else match base64_value c with
           | Some v => v :: base64_sextets rest
           | None => base64_sextets rest
           end
  end.

Fixpoint base64_groups (fuel : nat) (vs : list N) : Buffer :=
  match fuel with
  | O => []
  | S k =>
      match vs with
      | a :: b :: c :: d :: rest =>
          byte_of_N (a * 4 + b / 16)
            :: byte_of_N (b * 16 + c / 4)
            :: byte_of_N (c * 64 + d)
            :: base64_groups k rest
      | [a; b; c] => [byte_of_N (a * 4 + b / 16); byte_of_N (b * 16 + c / 4)]
      | [a; b] => [byte_of_N (a * 4 + b / 16)]
      | _ => []
      end
  end.

Definition base64_decode (s : string) : Buffer :=
  let vs := base64_sextets (list_ascii_of_string s) in
  base64_groups (S (List.length vs)) vs.

(* ================================================================== *)
(** ** AES (FIPS 197), the block function behind [aes-*-ctr]

    Bytes are handled as [N] inside the block function; the state is the
    sixteen input bytes in input order (column by column). *)

Module AES.

Definition xtime (a : N) : N :=
  let d := (a * 2)%N in
  if (256 <=? d)%N then N.lxor (d - 256) 27 else d.

Fixpoint gmul_aux (fuel : nat) (a b acc : N) : N :=
  match fuel with
  | O => acc
  | S k =>
      gmul_aux k (xtime a) (b / 2)
               (if N.odd b then N.lxor acc a else acc)
  end.

(** Multiplication in GF(2^8) modulo x^8 + x^4 + x^3 + x + 1. *)
Definition gmul (a b : N) : N := gmul_aux 8 a b 0.

Fixpoint gpow (a : N) (e : nat) : N :=
  match e with
  | O => 1%N
  | S k => gmul a (gpow a k)
  end.

Definition rotl8 (a : N) (k : N) : N :=
  (N.lor (N.shiftl a k) (N.shiftr a (8 - k)) mod 256)%N.

Definition sbox_of (a : N) : N :=
  let b := gpow a 254 in
  N.lxor (N.lxor (N.lxor (N.lxor (N.lxor b (rotl8 b 1)) (rotl8 b 2))
                         (rotl8 b 3)) (rotl8 b 4)) 99.

Definition sbox_table : list N :=
  Eval vm_compute in map (fun i => sbox_of (N.of_nat i)) (seq 0 256).

Definition sbox (a : N) : N := nth (N.to_nat a) sbox_table 0%N.

Definition xor_words (a b : list N) : list N :=
  map (fun p => N.lxor (fst p) (snd p)) (combine a b).

Definition rot_word (w : list N) : list N :=
  match w with
  | a :: rest => rest ++ [a]
  | [] => []
  end.

Definition rcon (i : nat) : list N := [gpow 2 (i - 1); 0; 0; 0]%N.

Fixpoint chunks (fuel : nat) (k : nat) (l : list N) : list (list N) :=
  match fuel with
  | O => []
  | S f =>
      match l with
      | [] => []
      | _ => firstn k l :: chunks f k (skipn k l)
      end
  end.

(** Key expansion: [ws] holds the words computed so far, oldest first. *)
Fixpoint expand (todo : nat) (nk : nat) (i : nat) (ws : list (list N))
  : list (list N) :=
  match todo with
  | O => ws
  | S t =>
      let prev := nth (i - 1) ws [] in
      let temp :=
        if (i mod nk =? 0)%nat
        then xor_words (map sbox (rot_word prev)) (rcon (i / nk))
        else if ((6 <? nk) && (i mod nk =? 4))%nat
             then map sbox prev
             else prev in
      expand t nk (S i) (ws ++ [xor_words (nth (i - nk) ws []) temp])
  end.

Definition key_schedule (key : list N) : list (list N) :=
  let nk := (List.length key / 4)%nat in
  expand (4 * (nk + 7) - nk) nk nk (chunks nk 4 key).

Definition round_key (ws : list (list N)) (r : nat) : list N :=
  List.concat (firstn 4 (skipn (4 * r) ws)).

Definition shift_rows (st : list N) : list N :=
  map (fun i => nth (4 * ((i / 4 + i mod 4) mod 4) + i mod 4) st 0%N)
      (seq 0 16).

Definition mix_column (c : list N) : list N :=
  match c with
  | [a0; a1; a2; a3] =>
      [ N.lxor (N.lxor (gmul 2 a0) (gmul 3 a1)) (N.lxor a2 a3);
        N.lxor (N.lxor a0 (gmul 2 a1)) (N.lxor (gmul 3 a2) a3);
        N.lxor (N.lxor a0 a1) (N.lxor (gmul 2 a2) (gmul 3 a3));
        N.lxor (N.lxor (gmul 3 a0) a1) (N.lxor a2 (gmul 2 a3)) ]
  | _ => c
  end.

Definition mix_columns (st : list N) : list N :=
  List.concat (map mix_column (chunks 4 4 st)).

Fixpoint rounds (todo : nat) (r : nat) (ws : list (list N)) (st : list N)
  : list N :=
  match todo with
  | O => st
  | S t =>
      rounds t (S r) ws
        (xor_words (mix_columns (shift_rows (map sbox st))) (round_key ws r))
  end.

(** The forward cipher on one 16-byte block, for a key of 16, 24 or 32
    bytes. *)
Definition encrypt_block (key block : Buffer) : Buffer :=
  let ws := key_schedule (map Byte.to_N key) in
  let nr := (List.length key / 4 + 6)%nat in
  let st := xor_words (map Byte.to_N block) (round_key ws 0) in
  let st := rounds (nr - 1) 1 ws st in
  map byte_of_N
      (xor_words (shift_rows (map sbox st)) (round_key ws nr)).

End AES.

Example aes256_fips197_c3 :
  toString_hex
    (AES.encrypt_block
       (hex_decode "000102030405060708090a0b0c0d0e0f101112131415161718191a1b1c1d1e1f")
       (hex_decode "00112233445566778899aabbccddeeff"))
  = "8ea2b7ca516745bfeafc49904b496089"%string.
Proof. vm_compute. reflexivity. Qed.

Example aes128_fips197_c1 :
  toString_hex
    (AES.encrypt_block
       (hex_decode "000102030405060708090a0b0c0d0e0f")
       (hex_decode "00112233445566778899aabbccddeeff"))
  = "69c4e0d86a7b0430d8cdb78070b4c55a"%string.
Proof. vm_compute. reflexivity. Qed.

(* ================================================================== *)
(** ** JavaScript values, exceptions and the process state *)

Inductive error : Type :=
| ReferenceError (ident : string)
| TypeError (msg : string)
| Error (msg : string).

(** The values the modelled functions exchange: [undefined], [null],
    strings and Node buffers. *)
Inductive jsval : Type :=
| JUndefined
| JNull
| JString (s : string)
| JBuffer (b : Buffer).

Inductive completion (A : Type) : Type :=
| Normal (a : A)
| Throw (e : error).

Arguments Normal {A} a.
Arguments Throw {A} e.

(** What the host's OpenSSL offers under a cipher name: the key and iv
    sizes it insists on, and the bytes [update] and [final] deliver
    together ([final] may throw, as block modes do on a bad length). *)
Record cipher_impl : Type := {
  key_length : nat;
  iv_length : nat;
  encipher : Buffer -> Buffer -> Buffer -> completion Buffer;
  decipher : Buffer -> Buffer -> Buffer -> completion Buffer
}.

(** A digest of the host: block size and the hash function. *)
Record digest_impl : Type := {
  block_size : nat;
  digest : Buffer -> Buffer
}.

Inductive log_line : Type :=
| LogError (e : error)
| LogText (s : string).

(** The state of the process: the entropy [crypto.randomBytes] draws from
    and how much of it was consumed, what was written to the console, and
    the ciphers and digests of the host besides the ones written out
    here. *)
Record world : Type := {
  entropy : nat -> byte;
  consumed : nat;
  console : list log_line;
  host_ciphers : string -> option cipher_impl;
  host_digests : string -> option digest_impl
}.

Definition js (A : Type) : Type := world -> completion A * world.

Definition ret {A : Type} (a : A) : js A := fun w => (Normal a, w).

Definition throw {A : Type} (e : error) : js A := fun w => (Throw e, w).

Definition bind {A B : Type} (m : js A) (k : A -> js B) : js B :=
  fun w =>
    match m w with
    | (Normal a, w') => k a w'
    | (Throw e, w') => (Throw e, w')
    end.

Definition lift {A : Type} (c : completion A) : js A := fun w => (c, w).

Definition try_catch {A : Type} (body : js A) (handler : error -> js A)
  : js A :=
  fun w =>
    match body w with
    | (Normal a, w') => (Normal a, w')
    | (Throw e, w') => handler e w'
    end.

Declare Scope js_scope.
Delimit Scope js_scope with js.
Notation "x <- m ;; k" := (bind m (fun x => k))
  (at level 61, m at next level, right associativity) : js_scope.
Notation "m ;;; k" := (bind m (fun _ => k))
  (at level 61, right associativity) : js_scope.
Open Scope js_scope.

(** The state after one more line on the console. *)
Definition logged (l : log_line) (w : world) : world :=
  {| entropy := entropy w; consumed := consumed w;
     console := console w ++ [l];
     host_ciphers := host_ciphers w; host_digests := host_digests w |}.

Definition console_error (e : error) : js unit :=
  fun w => (Normal tt, logged (LogError e) w).

Definition console_log (s : string) : js unit :=
  fun w => (Normal tt, logged (LogText s) w).

(** [a || b] takes [a] when it is truthy: [undefined], [null] and the
    empty string are falsy, a buffer (an object) is always truthy. *)
Definition truthy (v : jsval) : bool :=
  match v with
  | JUndefined | JNull => false
  | JString s => negb (String.eqb s EmptyString)
  | JBuffer _ => true
  end.

Definition js_or (a b : jsval) : jsval := if truthy a then a else b.

(* ------------------------------------------------------------------ *)
(** *** The names in scope of the libcrypto module *)

Definition module_scope : list string :=
  [ "Keythereum"; "ethUtils"; "stream"; "crypto"; "validator"; "EC";
    "ELLIPTIC_CURVE"; "ec"; "HKDF"; "BN"; "isString"; "LibCrypto";
    "str2buf" ]%string.

Definition node_globals : list string :=
  [ "Buffer"; "console"; "require"; "module"; "exports"; "process";
    "global"; "__filename"; "__dirname"; "setTimeout"; "setInterval";
    "setImmediate"; "clearTimeout"; "clearInterval"; "clearImmediate";
    "Promise"; "JSON"; "Math"; "String"; "Number"; "Object"; "Array";
    "Infinity"; "NaN"; "undefined" ]%string.

Definition in_scope (ident : string) : bool :=
  existsb (String.eqb ident) (module_scope ++ node_globals).

(** [zeros(n)] as the call sites write it.  The identifier is looked up
    when the call is evaluated; what a definition would presumably return
    is the zero-filled buffer the doc comment of [createDecipher] names. *)
Definition zeros (n : nat) : completion Buffer :=
  if in_scope "zeros" then Normal (repeat x00 n)
  else Throw (ReferenceError "zeros").

(* ================================================================== *)
(** ** The libraries the module calls *)

(** *** validator *)

Module validator.

(** [/^[0-9A-F]+$/i] *)
Definition isHexadecimal (s : string) : bool :=
  negb (String.eqb s EmptyString)
  && forallb (fun c => match hex_value c with Some _ => true | None => false end)
             (list_ascii_of_string s).

(** A character [/[^A-Z0-9+\/=]/i] rejects. *)
Definition notBase64 (c : ascii) : bool :=
  let n := N_of_ascii c in
  negb (((65 <=? n) && (n <=? 90)) || ((97 <=? n) && (n <=? 122))
        || ((48 <=? n) && (n <=? 57)) || (n =? 43) || (n =? 47)
        || (n =? 61))%N.

Fixpoint indexOf (c : ascii) (cs : list ascii) (i : nat) : option nat :=
  match cs with
  | [] => None
  | x :: rest => if Ascii.eqb x c then Some i else indexOf c rest (S i)
  end.

Definition isBase64 (s : string) : bool :=
  let cs := list_ascii_of_string s in
  let len := List.length cs in
  if (len =? 0)%nat || negb (len mod 4 =? 0)%nat || existsb notBase64 cs
  then false
  else match indexOf "="%char cs 0 with
       | None => true
       | Some i =>
           (i =? len - 1)%nat
           || ((i =? len - 2)%nat
               && Ascii.eqb (nth (len - 1) cs "000"%char) "="%char)
       end.

End validator.

(** *** Buffer *)

Definition lower_char (c : ascii) : ascii :=
  let n := N_of_ascii c in
  if ((65 <=? n) && (n <=? 90))%N then ascii_of_N (n + 32) else c.

Definition toLowerCase (s : string) : string :=
  string_of_list_ascii (map lower_char (list_ascii_of_string s)).

(** [new Buffer(str, enc)]: the encoding name is read without regard to
    case, and an unknown name is a [TypeError]. *)
Definition Buffer_from (s : string) (enc : jsval) : completion Buffer :=
  match enc with
  | JUndefined => Normal (utf8_encode s)
  | JString e =>
      let e := toLowerCase e in
      if String.eqb e "hex" then Normal (hex_decode s)
      else if String.eqb e "base64" then Normal (base64_decode s)
      else if String.eqb e "utf8" || String.eqb e "utf-8"
           then Normal (utf8_encode s)
      else if String.eqb e "latin1" || String.eqb e "binary"
           then Normal (latin1_encode s)
      else if String.eqb e "ascii" then Normal (ascii_encode s)
      else if String.eqb e "ucs2" || String.eqb e "ucs-2"
              || String.eqb e "utf16le" || String.eqb e "utf-16le"
           then Normal (utf16le_encode s)
      else Throw (TypeError "Unknown encoding")
  | _ => Throw (TypeError "Unknown encoding")
  end.

(** [x.toString('hex')]: hexadecimal for a buffer; a string ignores the
    argument and is returned as it is. *)
Definition toString (v : jsval) : completion string :=
  match v with
  | JBuffer b => Normal (toString_hex b)
  | JString s => Normal s
  | _ => Throw (TypeError "Cannot read property 'toString'")
  end.

(** *** crypto *)

Module crypto.

(** The next [n] bytes of the entropy, and the state once they are
    consumed. *)
Definition draw (n : nat) (w : world) : Buffer :=
  map (entropy w) (seq (consumed w) n).

Definition advance (n : nat) (w : world) : world :=
  {| entropy := entropy w; consumed := consumed w + n;
     console := console w;
     host_ciphers := host_ciphers w; host_digests := host_digests w |}.

Definition randomBytes (n : nat) : js Buffer :=
  fun w => (Normal (draw n w), advance n w).

(** Counter mode: block [j] of the key stream is the encryption of the iv
    read as a 128-bit big-endian counter and advanced [j] times. *)
Definition counter_block (iv : Buffer) (j : nat) : Buffer :=
  bytes_of_N 16 ((N_of_bytes iv + N.of_nat j) mod 2 ^ 128)%N.

Definition keystream_byte (key iv : Buffer) (pos : nat) : byte :=
  nth (pos mod 16) (AES.encrypt_block key (counter_block iv (pos / 16))) x00.

Fixpoint ctr_from (key iv : Buffer) (pos : nat) (data : Buffer) : Buffer :=
  match data with
  | [] => []
  | b :: rest =>
      byte_xor b (keystream_byte key iv pos) :: ctr_from key iv (S pos) rest
  end.

Definition aes_ctr (key_bytes : nat) : cipher_impl :=
  {| key_length := key_bytes;
     iv_length := 16;
     encipher := fun key iv data => Normal (ctr_from key iv 0 data);
     decipher := fun key iv data => Normal (ctr_from key iv 0 data) |}.

Definition getCipher (name : string) (w : world) : option cipher_impl :=
  let name' := toLowerCase name in
  if String.eqb name' "aes-256-ctr" then Some (aes_ctr 32)
  else if String.eqb name' "aes-192-ctr" then Some (aes_ctr 24)
  else if String.eqb name' "aes-128-ctr" then Some (aes_ctr 16)
  else host_ciphers w name.

(** A cipher or decipher object: the implementation with its key and iv. *)
Record Cipheriv : Type := {
  impl : cipher_impl;
  ckey : Buffer;
  civ : Buffer
}.

Definition toBuf (v : jsval) : completion Buffer :=
  match v with
  | JBuffer b => Normal b
  | JString s => Normal (utf8_encode s)
  | _ => Throw (TypeError "Not a buffer")
  end.

Definition newCipheriv (algorithm : jsval) (key : Buffer) (iv : jsval)
  : js Cipheriv :=
  match algorithm with
  | JString name =>
      ivb <- lift (toBuf iv) ;;
      fun w =>
        match getCipher name w with
        | None => (Throw (Error "Unknown cipher"), w)
        | Some c =>
            if negb (List.length ivb =? iv_length c)%nat
            then (Throw (Error "Invalid IV length"), w)
            else if negb (List.length key =? key_length c)%nat
            then (Throw (Error "Invalid key length"), w)
            else (Normal {| impl := c; ckey := key; civ := ivb |}, w)
        end
  | _ => throw (TypeError "Cipher type must be a string")
  end.

Definition createCipheriv := newCipheriv.
Definition createDecipheriv := newCipheriv.

(** [Buffer.concat([c.update(data), c.final()])] *)
Definition cipher_update_final (c : Cipheriv) (data : jsval) : js Buffer :=
  d <- lift (toBuf data) ;;
  lift (encipher (impl c) (ckey c) (civ c) d).

Definition decipher_update_final (c : Cipheriv) (data : jsval) : js Buffer :=
  d <- lift (toBuf data) ;;
  lift (decipher (impl c) (ckey c) (civ c) d).

End crypto.

(* ================================================================== *)
(** ** SHA-256 (FIPS 180-4), HMAC (RFC 2104) and the HKDF of
       node-hkdf-sync *)

Module SHA256.

Definition add32 (a b : N) : N := ((a + b) mod 4294967296)%N.

Definition rotr (x n : N) : N :=
  (N.lor (N.shiftr x n) (N.shiftl x (32 - n)) mod 4294967296)%N.

Definition Ch (x y z : N) : N :=
  N.lxor (N.land x y) (N.land (N.lxor x 4294967295) z).

Definition Maj (x y z : N) : N :=
  N.lxor (N.lxor (N.land x y) (N.land x z)) (N.land y z).

Definition Sigma0 (x : N) : N :=
  N.lxor (N.lxor (rotr x 2) (rotr x 13)) (rotr x 22).

Definition Sigma1 (x : N) : N :=
  N.lxor (N.lxor (rotr x 6) (rotr x 11)) (rotr x 25).

Definition sigma0 (x : N) : N :=
  N.lxor (N.lxor (rotr x 7) (rotr x 18)) (N.shiftr x 3).

Definition sigma1 (x : N) : N :=
  N.lxor (N.lxor (rotr x 17) (rotr x 19)) (N.shiftr x 10).

(** The first primes, by trial division. *)
Definition is_prime (n : N) : bool :=
  (2 <=? n)%N
  && forallb (fun d => negb (n mod N.of_nat d =? 0)%N)
             (seq 2 (N.to_nat n - 2)).

Definition first_primes (count : nat) : list N :=
  firstn count (filter is_prime (map N.of_nat (seq 0 320))).

(** The integer cube root, one bit at a time from bit [bits - 1] down. *)
Fixpoint cube_root_bits (bits : nat) (x r : N) : N :=
  match bits with
  | O => r
  | S b =>
      let r' := N.lor r (N.shiftl 1 (N.of_nat b)) in
      cube_root_bits b x (if (r' * r' * r' <=? x)%N then r' else r)
  end.

Definition cube_root (x : N) : N := cube_root_bits 40 x 0.

(** The round constants: the first 32 bits of the fractional parts of the
    cube roots of the first 64 primes. *)
Definition K : list N :=
  Eval vm_compute in
    map (fun q => (cube_root (q * 2 ^ 96) mod 4294967296)%N) (first_primes 64).

(** The initial hash value: the first 32 bits of the fractional parts of
    the square roots of the first 8 primes. *)
Definition H0 : list N :=
  Eval vm_compute in
    map (fun q => (N.sqrt (q * 2 ^ 64) mod 4294967296)%N) (first_primes 8).

Definition pad (msg : Buffer) : Buffer :=
  let len := List.length msg in
  msg ++ [x80] ++ repeat x00 ((64 - (len + 9) mod 64) mod 64)
      ++ bytes_of_N 8 (N.of_nat len * 8).

Fixpoint split_every (fuel : nat) (k : nat) (l : Buffer) : list Buffer :=
  match fuel with
  | O => []
  | S f =>
      match l with
      | [] => []
      | _ => firstn k l :: split_every f k (skipn k l)
      end
  end.

Fixpoint schedule (todo : nat) (t : nat) (W : list N) : list N :=
  match todo with
  | O => W
  | S k =>
      let x :=
        add32 (add32 (sigma1 (nth (t - 2) W 0%N)) (nth (t - 7) W 0%N))
              (add32 (sigma0 (nth (t - 15) W 0%N)) (nth (t - 16) W 0%N)) in
      schedule k (S t) (W ++ [x])
  end.

Definition round (st : list N) (kw : N * N) : list N :=
  match st with
  | [a; b; c; d; e; f; g; h] =>
      let T1 := add32 (add32 (add32 h (Sigma1 e)) (Ch e f g))
                      (add32 (fst kw) (snd kw)) in
      let T2 := add32 (Sigma0 a) (Maj a b c) in
      [add32 T1 T2; a; b; c; add32 d T1; e; f; g]
  | _ => st
  end.

Definition compress (H : list N) (block : Buffer) : list N :=
  let W := schedule 48 16 (map N_of_bytes (split_every 16 4 block)) in
  let st := fold_left round (combine K W) H in
  map (fun p => add32 (fst p) (snd p)) (combine H st).

Definition hash (msg : Buffer) : Buffer :=
  let p := pad msg in
  let blocks := split_every (S (List.length p)) 64 p in
  flat_map (bytes_of_N 4) (fold_left compress blocks H0).

Definition impl : digest_impl := {| block_size := 64; digest := hash |}.

End SHA256.

Example sha256_abc :
  toString_hex (SHA256.hash (utf8_encode "abc"))
  = "ba7816bf8f01cfea414140de5dae2223b00361a396177a9cb410ff61f20015ad"%string.
Proof. vm_compute. reflexivity. Qed.

Example sha256_empty :
  toString_hex (SHA256.hash [])
  = "e3b0c44298fc1c149afbf4c8996fb92427ae41e4649b934ca495991b7852b855"%string.
Proof. vm_compute. reflexivity. Qed.

Module Hmac.

Definition getDigest (name : string) (w : world) : option digest_impl :=
  if String.eqb (toLowerCase name) "sha256" then Some SHA256.impl
  else host_digests w name.

(** [crypto.createHash(name)] / [crypto.createHmac(name, key)]: an unknown
    digest throws. *)
Definition createHash (name : jsval) : js digest_impl :=
  match name with
  | JString s =>
      fun w =>
        match getDigest s w with
        | Some d => (Normal d, w)
        | None => (Throw (Error "Digest method not supported"), w)
        end
  | _ => throw (TypeError "Hash algorithm must be a string")
  end.

(** The key is hashed when longer than a block, then zero-padded to one. *)
Definition block_key (d : digest_impl) (key : Buffer) : Buffer :=
  let k := if (block_size d <? List.length key)%nat then digest d key else key in
  k ++ repeat x00 (block_size d - List.length k).

Definition hmac (d : digest_impl) (key msg : Buffer) : Buffer :=
  let k := block_key d key in
  digest d (map (byte_xor x5c) k ++ digest d (map (byte_xor x36) k ++ msg)).

End Hmac.

Module HKDF.

(** An [HKDF] object after its constructor ran: the digest, the length of
    its output and the pseudo-random key extracted from salt and input key
    material. *)
Record t : Type := {
  hash : digest_impl;
  hashLength : nat;
  prk : Buffer
}.

(** [new HKDF(hashAlg, salt, ikm)]; a falsy salt is replaced by
    [hashLength] zero bytes (the library has a [zeros] of its own). *)
Definition new (hashAlg : jsval) (salt : jsval) (ikm : Buffer) : js t :=
  d <- Hmac.createHash hashAlg ;;
  let hashLength := List.length (digest d []) in
  s <- lift (if truthy salt then crypto.toBuf salt
             else Normal (repeat x00 hashLength)) ;;
  ret {| hash := d; hashLength := hashLength; prk := Hmac.hmac d s ikm |}.

Fixpoint blocks (d : digest_impl) (prk info : Buffer) (todo i : nat)
         (prev : Buffer) : list Buffer :=
  match todo with
  | O => []
  | S k =>
      let cur := Hmac.hmac d prk (prev ++ info ++ [byte_of_N (N.of_nat (i + 1))]) in
      cur :: blocks d prk info k (S i) cur
  end.

(** [Buffer.concat(list, totalLength)] *)
Definition Buffer_concat (l : list Buffer) (total : nat) : Buffer :=
  firstn total (List.concat l ++ repeat x00 total).

(** [derive(info, size)], with [Math.ceil(size / hashLength)] blocks. *)
Definition derive (h : t) (info : jsval) (size : nat) : completion Buffer :=
  match crypto.toBuf info with
  | Throw e => Throw e
  | Normal i =>
      let num_blocks := ((size + hashLength h - 1) / hashLength h)%nat in
      Normal (Buffer_concat (blocks (hash h) (prk h) i num_blocks 0 []) size)
  end.

End HKDF.

(* ================================================================== *)
(** ** The elliptic library: curves, key pairs, ECDH and ECDSA *)

Open Scope Z_scope.

(** [new BN(buffer)] and [bn.toBuffer()] (big-endian, no more bytes than
    needed, one byte for zero). *)
Definition BN (b : Buffer) : Z := Z.of_N (N_of_bytes b).

Definition bitLength (z : Z) : Z := if z <=? 0 then 0 else Z.log2 z + 1.

Definition byteLength (z : Z) : Z := (bitLength z + 7) / 8.

Definition toBuffer (z : Z) : Buffer :=
  bytes_of_N (Z.to_nat (Z.max 1 (byteLength z))) (Z.to_N z).

(** The extended Euclidean algorithm behind [bn.invm(n)]: the result
    [(g, x)] satisfies [a * x = g] modulo [b]. *)
Fixpoint egcd (fuel : nat) (a b : Z) : Z * Z * Z :=
  match fuel with
  | O => (a, 1, 0)
  | S f =>
      if b =? 0 then (a, 1, 0)
      else let '(g, x, y) := egcd f b (a mod b) in
           (g, y, x - (a / b) * y)
  end.

Definition invm (a m : Z) : Z :=
  let '(_, x, _) := egcd (Z.to_nat (2 * Z.log2_up m + 3)) (a mod m) m in
  x mod m.

Module EC.

(** A curve as the library presents it: its points with the point at
    infinity and the base point [g], point addition, the order [n] of [g],
    the field size [p], and the conversions the key functions use. *)
Record curve : Type := {
  point : Type;
  infinity : point;
  g : point;
  add : point -> point -> point;
  n : Z;
  p : Z;
  validate : point -> bool;
  isInfinity : point -> bool;
  getX : point -> Z;
  getY : point -> Z;
  pointFromX : Z -> bool -> option point;
  encode : point -> Buffer;
  decodePoint : Buffer -> option point;
  (** the candidate nonce the deterministic generator, seeded with the
      private key and the message, offers at each iteration *)
  drbg : Z -> Z -> nat -> Z
}.

Section WithCurve.

Variable c : curve.

(** Scalar multiplication by double-and-add. *)
Fixpoint pmul (k : positive) (P : point c) : point c :=
  match k with
  | xH => P
  | xO k' => let Q := pmul k' P in add c Q Q
  | xI k' => let Q := pmul k' P in add c (add c Q Q) P
  end.

Definition mul (k : Z) (P : point c) : point c :=
  match k with
  | Zpos k' => pmul k' P
  | _ => infinity c
  end.

(** [g.mulAdd(k1, P, k2)] *)
Definition mulAdd (k1 : Z) (P : point c) (k2 : Z) : point c :=
  add c (mul k1 (g c)) (mul k2 P).

(** [point.getX()]: the point at infinity has no coordinates. *)
Definition getX_checked (P : point c) : completion Z :=
  if isInfinity c P then Throw (TypeError "Cannot read property 'fromRed' of null")
  else Normal (getX c P).

(** [point.encode('arr')] in uncompressed form. *)
Definition encodePoint (P : point c) : completion Buffer :=
  if isInfinity c P then Throw (TypeError "Cannot read property 'fromRed' of null")
  else Normal (encode c P).

(** [ec.keyFromPrivate(priv)] keeps the scalar reduced modulo [n]. *)
Definition keyFromPrivate (priv : Buffer) : Z := BN priv mod n c.

(** [keyPair.getPublic()] *)
Definition getPublic (d : Z) : point c := mul d (g c).

(** [ec.keyFromPublic(pub)] *)
Definition keyFromPublic (pub : Buffer) : completion (point c) :=
  match decodePoint c pub with
  | Some P => Normal P
  | None => Throw (Error "Unknown point format")
  end.

(** [keyPair.derive(pub)] *)
Definition derive (d : Z) (pub : point c) : completion Z :=
  getX_checked (mul d pub).

Definition truncateToN (msg : Z) (truncOnly : bool) : Z :=
  let delta := byteLength msg * 8 - bitLength (n c) in
  let msg := if 0 <? delta then Z.shiftr msg delta else msg in
  if negb truncOnly && (n c <=? msg) then msg - n c else msg.

Record Signature : Type := {
  sig_r : Z;
  sig_s : Z;
  recoveryParam : Z
}.

(** The loop of [ec.sign]: candidates are drawn until one gives a
    signature with non-zero [r] and [s].  No [canonical] option is passed
    by the module, so [s] is kept as computed. *)
Fixpoint sign_loop (fuel : nat) (iter : nat) (d msg : Z) : option Signature :=
  match fuel with
  | O => None
  | S f =>
      let k := truncateToN (drbg c d msg iter) true in
      if (k <=? 1) || (n c - 1 <=? k) then sign_loop f (S iter) d msg
      else
        let kp := mul k (g c) in
        if isInfinity c kp then sign_loop f (S iter) d msg
        else
          let kpX := getX c kp in
          let r := kpX mod n c in
          if r =? 0 then sign_loop f (S iter) d msg
          else
            let s := (invm k (n c) * (r * d + msg)) mod n c in
            if s =? 0 then sign_loop f (S iter) d msg
            else
              Some {| sig_r := r;
                      sig_s := s;
                      recoveryParam :=
                        Z.lor (if Z.odd (getY c kp) then 1 else 0)
                              (if kpX =? r then 0 else 2) |}
  end.

(** [ec.sign(msg, key)] *)
Definition ec_sign (fuel : nat) (msg : Buffer) (d : Z) : option Signature :=
  sign_loop fuel 0 d (truncateToN (BN msg) false).


(** [ec.verify(msg, signature, key)].  The library compares the
    x-coordinate in Jacobian form; the comparison decides whether the
    x-coordinate of the point is [r] modulo [n]. *)
Definition ec_verify (msg : Buffer) (sg : Signature) (pub : point c) : bool :=
  let msg := truncateToN (BN msg) false in
  let r := sig_r sg in
  let s := sig_s sg in
  if (r <? 1) || (n c <=? r) then false
  else if (s <? 1) || (n c <=? s) then false
  else
    let sinv := invm s (n c) in
    let u1 := (sinv * msg) mod n c in
    let u2 := (sinv * r) mod n c in
    let P := mulAdd u1 pub u2 in
    if isInfinity c P then false
    else getX c P mod n c =? r.

End WithCurve.

End EC.

(* ------------------------------------------------------------------ *)
(** *** Short Weierstrass curves  y^2 = x^3 + a x + b  over a prime field

    Points are kept in affine coordinates, [None] being the point at
    infinity.  The library computes in Jacobian coordinates; the points
    it returns are these. *)

Fixpoint powmod_pos (b : Z) (e : positive) (m : Z) : Z :=
  match e with
  | xH => b mod m
  | xO e' => let h := powmod_pos b e' m in (h * h) mod m
  | xI e' => let h := powmod_pos b e' m in (h * h * b) mod m
  end.

Definition powmod (b e m : Z) : Z :=
  match e with
  | Zpos e' => powmod_pos b e' m
  | _ => 1 mod m
  end.

Module Short.

Section Params.

Variables fp a b gx gy order : Z.
Variable gen : Z -> Z -> nat -> Z.

Definition pt : Type := option (Z * Z).

Definition dbl (P : pt) : pt :=
  match P with
  | None => None
  | Some (x, y) =>
      if (2 * y) mod fp =? 0 then None
      else
        let l := ((3 * x * x + a) * invm (2 * y) fp) mod fp in
        let x3 := (l * l - 2 * x) mod fp in
        Some (x3, (l * (x - x3) - y) mod fp)
  end.

Definition add (P Q : pt) : pt :=
  match P, Q with
  | None, _ => Q
  | _, None => P
  | Some (x1, y1), Some (x2, y2) =>
      if x1 =? x2 then (if y1 =? y2 then dbl P else None)
      else
        let l := ((y2 - y1) * invm (x2 - x1) fp) mod fp in
        let x3 := (l * l - x1 - x2) mod fp in
        Some (x3, (l * (x1 - x3) - y1) mod fp)
  end.

Definition validate (P : pt) : bool :=
  match P with
  | None => true
  | Some (x, y) =>
      (0 <=? x) && (x <? fp) && (0 <=? y) && (y <? fp)
      && ((y * y) mod fp =? (x * x * x + a * x + b) mod fp)
  end.

Definition isInfinity (P : pt) : bool :=
  match P with None => true | Some _ => false end.

Definition getX (P : pt) : Z := match P with Some (x, _) => x | None => 0 end.

Definition getY (P : pt) : Z := match P with Some (_, y) => y | None => 0 end.

(** The square root is the power [(p + 1) / 4], as for every field size
    that is 3 modulo 4. *)
Definition pointFromX (x : Z) (odd : bool) : option pt :=
  let x := x mod fp in
  let y2 := (x * x * x + a * x + b) mod fp in
  let y := powmod y2 ((fp + 1) / 4) fp in
  if negb ((y * y) mod fp =? y2) then None
  else Some (Some (x, if Bool.eqb odd (Z.odd y) then y else (fp - y) mod fp)).

Definition coord_len : nat := Z.to_nat (byteLength fp).

Definition encode (P : pt) : Buffer :=
  x04 :: bytes_of_N coord_len (Z.to_N (getX P))
      ++ bytes_of_N coord_len (Z.to_N (getY P)).

Definition decodePoint (bytes : Buffer) : option pt :=
  match bytes with
  | tag :: rest =>
      if Byte.eqb tag x04 && (List.length rest =? 2 * coord_len)%nat
      then Some (Some (BN (firstn coord_len rest) mod fp,
                       BN (skipn coord_len rest) mod fp))
      else if (Byte.eqb tag x02 || Byte.eqb tag x03)
              && (List.length rest =? coord_len)%nat
      then pointFromX (BN rest) (Byte.eqb tag x03)
      else None
  | [] => None
  end.

Definition curve : EC.curve :=
  {| EC.point := pt;
     EC.infinity := None;
     EC.g := Some (gx, gy);
     EC.add := add;
     EC.n := order;
     EC.p := fp;
     EC.validate := validate;
     EC.isInfinity := isInfinity;
     EC.getX := getX;
     EC.getY := getY;
     EC.pointFromX := pointFromX;
     EC.encode := encode;
     EC.decodePoint := decodePoint;
     EC.drbg := gen |}.

End Params.

End Short.

(** The curve the module instantiates: [new EC('secp256k1')].  The nonce
    generator is left to the caller of this definition. *)
Definition secp256k1 (gen : Z -> Z -> nat -> Z) : EC.curve :=
  Short.curve
    0xfffffffffffffffffffffffffffffffffffffffffffffffffffffffefffffc2f
    0 7
    0x79be667ef9dcbbac55a06295ce870b07029bfcdb2dce28d959f2815b16f81798
    0x483ada7726a3c4655da4fbfc0e1108a8fd17b448a68554199c47d08ffb10d4b8
    0xfffffffffffffffffffffffffffffffebaaedce6af48a03bbfd25e8cd0364141
    gen.

(** A curve of the same shape small enough to check exhaustively:
    y^2 = x^3 + 7 over the field of 43 elements, whose 31 points form a
    group of prime order generated by (2, 12). *)
Definition tiny_gen (d msg : Z) (iter : nat) : Z :=
  8 * (3 * d + msg + Z.of_nat iter).

Definition tiny : EC.curve := Short.curve 43 0 7 2 12 31 tiny_gen.


Close Scope Z_scope.

(* ================================================================== *)
(** ** libcrypto: helpers *)

(** [str.constructor === String]; reading a property of [undefined] or
    [null] throws. *)
Definition isString (str : jsval) : completion bool :=
  match str with
  | JString _ => Normal true
  | JBuffer _ => Normal false
  | JUndefined | JNull => Throw (TypeError "Cannot read property 'constructor'")
  end.

Definition str2buf (str : jsval) (enc : jsval) : completion jsval :=
  match isString str with
  | Throw e => Throw e
  | Normal false => Normal str
  | Normal true =>
      match str with
      | JString s =>
          if truthy enc then
            match Buffer_from s enc with
            | Normal b => Normal (JBuffer b)
            | Throw e => Throw e
            end
          else if validator.isHexadecimal s then Normal (JBuffer (hex_decode s))
          else if validator.isBase64 s then Normal (JBuffer (base64_decode s))
          else Normal (JBuffer (utf8_encode s))
      | _ => Normal str
      end
  end.

(** The [options] argument of the cipher functions; an absent property
    reads [undefined]. *)
Record cipher_options : Type := {
  algorithm : jsval;
  iv : jsval;
  cipherEncoding : jsval
}.

(** [{}] *)
Definition no_options : cipher_options :=
  {| algorithm := JUndefined; iv := JUndefined; cipherEncoding := JUndefined |}.

(** Reading a property of the [options] argument: [None] stands for an
    argument that was not passed. *)
Definition prop (options : option cipher_options)
           (field : cipher_options -> jsval) : js jsval :=
  match options with
  | Some o => ret (field o)
  | None => throw (TypeError "Cannot read property of undefined")
  end.

(** What [createCipher] / [createDecipher] return. *)
Record cipher_param : Type := {
  cp_cipher : crypto.Cipheriv;
  cp_iv : jsval;
  cp_algorithm : jsval
}.

(** What [encrypt] returns when it does not return [null]. *)
Record CipherEnvelope : Type := {
  env_algorithm : jsval;
  env_iv : string;
  cipherText : Buffer
}.

(* ================================================================== *)
(** ** libcrypto: the options and results of key strengthening *)

(** The [options] of [deriveSecretKey]; [opt_size] is [None] when the
    property is absent. *)
Record kdf_options : Type := {
  opt_hashAlg : jsval;
  opt_info : jsval;
  opt_size : option nat;
  opt_salt : jsval
}.

Definition no_kdf_options : kdf_options :=
  {| opt_hashAlg := JUndefined; opt_info := JUndefined;
     opt_size := None; opt_salt := JUndefined |}.

Record hkdf_params : Type := {
  hashAgl : jsval;
  hp_salt : string;
  hp_info : jsval;
  hp_size : nat
}.

Record secret_key : Type := {
  sk_key : Buffer;
  sk_hkdf : hkdf_params
}.

(** A key pair as [keyPair] returns it. *)
Record KeyPair : Type := {
  kp_privateKey : Buffer;
  kp_publicKey : Buffer
}.

(** What [encryptObjectForParty] resolves to; [encryptedTag] is [None]
    when [encrypt] returned [null]. *)
Record party_tag : Type := {
  ownerPubKey : Buffer;
  destPubKey : Buffer;
  tag_hkdf : hkdf_params;
  encryptedTag : option CipherEnvelope
}.

(* ================================================================== *)
(** ** libcrypto: the class *)

Module LibCrypto.

Section Methods.

(** [const ec = new EC(ELLIPTIC_CURVE)] *)
Variable ec : EC.curve.

Definition private2public (privateKey : Buffer) : completion Buffer :=
  EC.encodePoint ec (EC.getPublic ec (EC.keyFromPrivate ec privateKey)).

Definition createCipher (secretKey : Buffer) (options : option cipher_options)
  : js cipher_param :=
  a <- prop options algorithm ;;
  let algorithm := js_or a (JString "aes-256-ctr") in
  i <- prop options iv ;;
  iv <- (if truthy i then ret i
         else b <- crypto.randomBytes 16 ;; ret (JBuffer b)) ;;
  c <- crypto.createCipheriv algorithm secretKey iv ;;
  ret {| cp_cipher := c; cp_iv := iv; cp_algorithm := algorithm |}.

Definition createDecipher (secretKey : Buffer) (options : option cipher_options)
  : js cipher_param :=
  a <- prop options algorithm ;;
  let algorithm := js_or a (JString "aes-256-ctr") in
  i <- prop options iv ;;
  iv <- (if truthy i then ret i
         else z <- lift (zeros 16) ;; ret (JBuffer z)) ;;
  c <- crypto.createDecipheriv algorithm secretKey iv ;;
  ret {| cp_cipher := c; cp_iv := iv; cp_algorithm := algorithm |}.

Definition deriveSharedKey (privateKey1 publicKey2 : Buffer)
  : completion Buffer :=
  let keyPair1 := EC.keyFromPrivate ec privateKey1 in
  match EC.keyFromPublic ec publicKey2 with
  | Throw e => Throw e
  | Normal keyPair2 =>
      match EC.derive ec keyPair1 keyPair2 with
      | Throw e => Throw e
      | Normal sharedKey => Normal (toBuffer sharedKey)
      end
  end.

(** [deriveSecretKey(derivedSharedKey, options = {})] *)
Definition deriveSecretKey (derivedSharedKey : Buffer)
           (options : option kdf_options) : js secret_key :=
  let options := match options with Some o => o | None => no_kdf_options end in
  let hashAgl := js_or (opt_hashAlg options) (JString "sha256") in
  let info := js_or (opt_info options) (JString "file-force") in
  let size := match opt_size options with
              | Some (S n) => S n
              | _ => 32%nat
              end in
  s <- (if truthy (opt_salt options) then ret (opt_salt options)
        else b <- crypto.randomBytes 32 ;; ret (JBuffer b)) ;;
  salt <- lift (str2buf s (JString "hex")) ;;
  h <- HKDF.new hashAgl salt derivedSharedKey ;;
  hKey <- lift (HKDF.derive h info size) ;;
  saltHex <- lift (toString salt) ;;
  ret {| sk_key := hKey;
         sk_hkdf := {| hashAgl := hashAgl; hp_salt := saltHex;
                       hp_info := info; hp_size := size |} |}.

(** [sign(message, privateKey)]; [None] when the nonce loop of the
    library has not returned within [fuel] iterations. *)
Definition sign (fuel : nat) (message privateKey : Buffer)
  : option EC.Signature :=
  EC.ec_sign ec fuel message (EC.keyFromPrivate ec privateKey).

(** [verify(signature, message, pub)] *)
Definition verify (signature : EC.Signature) (message pub : Buffer)
  : completion bool :=
  match EC.keyFromPublic ec pub with
  | Throw e => Throw e
  | Normal key => Normal (EC.ec_verify ec message signature key)
  end.


(** [randomKey(size = 32)]; [None] is the argument left out. *)
Definition randomKey (size : option nat) : js Buffer :=
  let size := match size with Some n => n | None => 32%nat end in
  rnd <- crypto.randomBytes size ;;
  salt <- crypto.randomBytes size ;;
  h <- HKDF.new (JString "sha256") (JBuffer salt) rnd ;;
  lift (HKDF.derive h (JString "ethereum-simm") size).

(** [encrypt(data, secretKey, options = {})]; the result [None] is the
    [null] of the [catch] branch. *)
Definition encrypt (data : jsval) (secretKey : Buffer)
           (options : option cipher_options) : js (option CipherEnvelope) :=
  let options := match options with Some o => o | None => no_options end in
  try_catch
    (bufferData <- lift (str2buf data JUndefined) ;;
     cipherParam <- createCipher secretKey (Some options) ;;
     encrypted <- crypto.cipher_update_final (cp_cipher cipherParam) bufferData ;;
     ivHex <- lift (toString (cp_iv cipherParam)) ;;
     ret (Some {| env_algorithm := cp_algorithm cipherParam;
                  env_iv := ivHex;
                  cipherText := encrypted |}))
    (fun e => console_error e ;;; ret None).

(** [encryptObjectForParty(object, selfKeyPair, partyPublicKey)].  The
    test [typeof obj === 'object'] reads an identifier that is not
    declared, so the object is always passed through [JSON.stringify];
    [objectJson] is what that call returns (a string, or [undefined]).
    The executor of the promise runs at once; a throw in it is the
    rejection of the promise. *)
Definition encryptObjectForParty (objectJson : jsval) (selfKeyPair : KeyPair)
           (partyPublicKey : Buffer) : js party_tag :=
  selfSharedKey <- lift (deriveSharedKey (kp_privateKey selfKeyPair)
                                         partyPublicKey) ;;
  selfStrongKeyMaterial <- deriveSecretKey selfSharedKey None ;;
  encryptedTag <- encrypt objectJson (sk_key selfStrongKeyMaterial) None ;;
  ret {| ownerPubKey := kp_publicKey selfKeyPair;
         destPubKey := partyPublicKey;
         tag_hkdf := sk_hkdf selfStrongKeyMaterial;
         encryptedTag := encryptedTag |}.

(** [decrypt(data, secretKey, options)]; the result [None] is the [null]
    of the [catch] branch. *)
Definition decrypt (data : jsval) (secretKey : Buffer)
           (options : option cipher_options) : js (option Buffer) :=
  try_catch
    (a <- prop options algorithm ;;
     let algorithm := js_or a (JString "aes-256-ctr") in
     ce <- prop options cipherEncoding ;;
     let cipherEncoding := js_or ce (JString "base64") in
     i <- prop options iv ;;
     iv <- (if truthy i then ret i
            else z <- lift (zeros 16) ;; ret (JBuffer z)) ;;
     binData <- lift (str2buf data cipherEncoding) ;;
     binIV <- lift (str2buf iv (JString "hex")) ;;
     decipher <- crypto.createDecipheriv algorithm secretKey binIV ;;
     out <- crypto.decipher_update_final decipher binData ;;
     ret (Some out))
    (fun e => console_error e ;;; ret None).

End Methods.

End LibCrypto.

(** The options a reader builds from an envelope: its own algorithm and
    iv. *)
Definition options_of (e : CipherEnvelope) : cipher_options :=
  {| algorithm := env_algorithm e;
     iv := JString (env_iv e);
     cipherEncoding := JUndefined |}.

(** A world to evaluate in: entropy 0, 1, 2, ... and a host that offers
    nothing besides what is written out above. *)
Definition world0 : world :=
  {| entropy := fun i => byte_of_N (N.of_nat i);
     consumed := 0;
     console := [];
     host_ciphers := fun _ => None;
     host_digests := fun _ => None |}.

Definition key0 : Buffer := map (fun i => byte_of_N (N.of_nat i)) (seq 0 32).

(* ================================================================== *)
(** ** The symmetric cipher: facts about bytes and the counter mode *)

Lemma xor_bits_involutive (a k : bits8) : xor_bits (xor_bits a k) k = a.
Proof.
  destruct a as (a0, (a1, (a2, (a3, (a4, (a5, (a6, a7))))))).
  destruct k as (k0, (k1, (k2, (k3, (k4, (k5, (k6, k7))))))).
  unfold xor_bits.
  repeat rewrite xorb_assoc.
  repeat rewrite xorb_nilpotent.
  repeat rewrite xorb_false_r.
  reflexivity.
Qed.

Lemma byte_xor_involutive (a k : byte) : byte_xor (byte_xor a k) k = a.
Proof.
  unfold byte_xor.
  rewrite Byte.to_bits_of_bits, xor_bits_involutive.
  apply Byte.of_bits_to_bits.
Qed.

(** Counter mode is its own inverse: the same key stream is xor-ed twice. *)
Lemma ctr_from_involutive (key iv data : Buffer) :
  forall pos,
    crypto.ctr_from key iv pos (crypto.ctr_from key iv pos data) = data.
Proof.
  induction data as [|b rest IH]; intros pos; simpl.
  - reflexivity.
  - rewrite byte_xor_involutive, IH. reflexivity.
Qed.

Lemma ctr_from_length (key iv data : Buffer) :
  forall pos,
    List.length (crypto.ctr_from key iv pos data) = List.length data.
Proof.
  induction data as [|b rest IH]; intros pos; simpl; [reflexivity|].
  now rewrite IH.
Qed.

Lemma hex_pair_roundtrip (x : byte) :
  hex_value (hex_digit (Byte.to_N x / 16)) = Some (Byte.to_N x / 16)%N
  /\ hex_value (hex_digit (Byte.to_N x mod 16)) = Some (Byte.to_N x mod 16)%N
  /\ byte_of_N (16 * (Byte.to_N x / 16) + Byte.to_N x mod 16) = x.
Proof. destruct x; vm_compute; repeat split. Qed.

Lemma hex_decode_toString_hex (b : Buffer) : hex_decode (toString_hex b) = b.
Proof.
  induction b as [|x rest IH]; [reflexivity|].
  cbn [toString_hex hex_decode].
  destruct (hex_pair_roundtrip x) as (Hh & Hl & Hb).
  rewrite Hh, Hl, Hb, IH. reflexivity.
Qed.

Lemma toString_hex_length (b : Buffer) :
  String.length (toString_hex b) = 2 * List.length b.
Proof.
  induction b as [|x rest IH]; [reflexivity|].
  cbn [toString_hex String.length List.length]. rewrite IH. lia.
Qed.

Lemma truthy_hex (b : Buffer) :
  b <> [] -> truthy (JString (toString_hex b)) = true.
Proof. destruct b; [congruence|]. reflexivity. Qed.

Lemma draw_length (n : nat) (w : world) : List.length (crypto.draw n w) = n.
Proof. unfold crypto.draw. now rewrite length_map, length_seq. Qed.

Lemma js_or_falsy (a d : jsval) : truthy a = false -> js_or a d = d.
Proof. unfold js_or. now intros ->. Qed.

(** Unfolding of the monad's plumbing, leaving the library calls. *)
Ltac js_step :=
  cbv beta iota zeta delta
      [bind ret lift prop throw try_catch console_error
       cp_cipher cp_iv cp_algorithm env_algorithm env_iv cipherText].

Lemma newCipheriv_aes256ctr (K ivb : Buffer) (w : world) :
  crypto.newCipheriv (JString "aes-256-ctr") K (JBuffer ivb) w
  = if negb (List.length ivb =? 16) then (Throw (Error "Invalid IV length"), w)
    else if negb (List.length K =? 32) then (Throw (Error "Invalid key length"), w)
    else (Normal {| crypto.impl := crypto.aes_ctr 32;
                    crypto.ckey := K; crypto.civ := ivb |}, w).
Proof. reflexivity. Qed.

(** [createCipher] when neither algorithm nor iv is overridden. *)
Lemma createCipher_default (K : Buffer) (o : cipher_options) (w : world) :
  truthy (algorithm o) = false -> truthy (iv o) = false ->
  LibCrypto.createCipher K (Some o) w
  = if negb (List.length K =? 32)
    then (Throw (Error "Invalid key length"), crypto.advance 16 w)
    else (Normal {| cp_cipher := {| crypto.impl := crypto.aes_ctr 32;
                                    crypto.ckey := K;
                                    crypto.civ := crypto.draw 16 w |};
                    cp_iv := JBuffer (crypto.draw 16 w);
                    cp_algorithm := JString "aes-256-ctr" |},
          crypto.advance 16 w).
Proof.
  intros Ha Hi.
  unfold LibCrypto.createCipher, crypto.randomBytes, crypto.createCipheriv.
  js_step. rewrite Hi, (@js_or_falsy _ _ Ha). js_step.
  rewrite newCipheriv_aes256ctr, draw_length. cbn [Nat.eqb negb].
  destruct (negb (List.length K =? 32)); reflexivity.
Qed.

Lemma encrypt_default (data : jsval) (P K : Buffer) (w : world) :
  str2buf data JUndefined = Normal (JBuffer P) ->
  List.length K = 32 ->
  LibCrypto.encrypt data K None w
  = (Normal (Some {| env_algorithm := JString "aes-256-ctr";
                     env_iv := toString_hex (crypto.draw 16 w);
                     cipherText := crypto.ctr_from K (crypto.draw 16 w) 0 P |}),
     crypto.advance 16 w).
Proof.
  intros HP HK. unfold LibCrypto.encrypt. js_step.
  rewrite HP, createCipher_default by reflexivity.
  rewrite HK. reflexivity.
Qed.

Lemma decrypt_aes256ctr (C K ivb : Buffer) (w : world) :
  List.length K = 32 -> List.length ivb = 16 ->
  LibCrypto.decrypt (JBuffer C) K
    (Some {| algorithm := JString "aes-256-ctr";
             iv := JString (toString_hex ivb);
             cipherEncoding := JUndefined |}) w
  = (Normal (Some (crypto.ctr_from K ivb 0 C)), w).
Proof.
  intros HK HI. unfold LibCrypto.decrypt, crypto.createDecipheriv. js_step.
  cbn [algorithm iv cipherEncoding].
  rewrite truthy_hex by (intros ->; discriminate).
  cbn [truthy js_or negb String.eqb Ascii.eqb Bool.eqb isString str2buf].
  change (Buffer_from (toString_hex ivb) (JString "hex"))
    with (Normal (hex_decode (toString_hex ivb))).
  rewrite hex_decode_toString_hex. js_step.
  rewrite newCipheriv_aes256ctr, HK, HI.
  reflexivity.
Qed.

(** The counter wraps around at 2^128 (the value is what OpenSSL gives
    for this key, iv and forty letters x). *)
Example aes256ctr_counter_wraps :
  toString_hex
    (crypto.ctr_from key0 (repeat xff 16) 0 (repeat x78 40))
  = ("91e19c6534df08a22bff690325f72f96"
     ++ "8ae878ce5231e7a8d18be212a5560ff8"
     ++ "88250ed632c1e79d")%string.
Proof. vm_compute. reflexivity. Qed.

(** What [str2buf] makes of a plaintext: a buffer is kept, a string that
    is neither hexadecimal nor base64 is read as UTF-8. *)
Lemma str2buf_buffer (b : Buffer) :
  str2buf (JBuffer b) JUndefined = Normal (JBuffer b).
Proof. reflexivity. Qed.

Lemma str2buf_plain_string (s : string) :
  validator.isHexadecimal s = false -> validator.isBase64 s = false ->
  str2buf (JString s) JUndefined = Normal (JBuffer (utf8_encode s)).
Proof. intros Hh Hb. cbn [str2buf isString truthy]. now rewrite Hh, Hb. Qed.

(** C1 (as amended).  For every plaintext that is a buffer or a string and
    every 32-byte key, [encrypt] with default options returns an envelope,
    and [decrypt] of that envelope's cipher text with the same key and the
    envelope's own algorithm and iv returns exactly the bytes [P] that
    [str2buf] derived from the plaintext: the buffer itself, or, for a
    string, its decoding (hexadecimal or base64 when the string has that
    shape, UTF-8 otherwise). *)
Theorem encrypt_decrypt_roundtrip (data : jsval) (P K : Buffer) (w : world) :
  str2buf data JUndefined = Normal (JBuffer P) ->
  List.length K = 32 ->
  exists env w',
    LibCrypto.encrypt data K None w = (Normal (Some env), w')
    /\ forall w2,
         LibCrypto.decrypt (JBuffer (cipherText env)) K
                           (Some (options_of env)) w2
         = (Normal (Some P), w2).
Proof.
  intros HP HK. rewrite (@encrypt_default data P K w HP HK).
  eexists _, _. split; [reflexivity|]. intros w2.
  unfold options_of. cbn [env_algorithm env_iv cipherText].
  rewrite decrypt_aes256ctr by (assumption || apply draw_length).
  now rewrite ctr_from_involutive.
Qed.

Lemma encrypt_decrypt_roundtrip_witness :
  exists env w',
    LibCrypto.encrypt (JString "hello") key0 None world0 = (Normal (Some env), w')
    /\ forall w2,
         LibCrypto.decrypt (JBuffer (cipherText env)) key0
                           (Some (options_of env)) w2
         = (Normal (Some (utf8_encode "hello")), w2).
Proof.
  apply (@encrypt_decrypt_roundtrip (JString "hello") (utf8_encode "hello")
                                    key0 world0); reflexivity.
Defined.

(** C1 (as stated) fails for a string plaintext that looks hexadecimal:
    ["cafe"] is encrypted as the two bytes ca fe, and those two bytes, not
    the four bytes of the string, are what decryption returns. *)
Lemma encrypt_decrypt_hex_string :
  exists env w',
    LibCrypto.encrypt (JString "cafe") key0 None world0 = (Normal (Some env), w')
    /\ LibCrypto.decrypt (JBuffer (cipherText env)) key0
                         (Some (options_of env)) w'
       = (Normal (Some [xca; xfe]), w')
    /\ [xca; xfe] <> utf8_encode "cafe".
Proof.
  rewrite (@encrypt_default (JString "cafe") [xca; xfe] key0 world0)
    by reflexivity.
  eexists _, _. split; [reflexivity|].
  unfold options_of. cbn [env_algorithm env_iv cipherText].
  rewrite decrypt_aes256ctr by (reflexivity || apply draw_length).
  rewrite ctr_from_involutive. split; [reflexivity|discriminate].
Qed.

Ltac js_step_in H :=
  cbv beta iota zeta delta
      [bind ret lift prop throw try_catch console_error
       cp_cipher cp_iv cp_algorithm env_algorithm env_iv cipherText] in H.

(** C6.  Every envelope [encrypt] produces when neither the algorithm nor
    the iv is overridden names the algorithm aes-256-ctr and carries, in
    hexadecimal, an iv of 16 bytes (the length that algorithm requires). *)
Theorem encrypt_default_envelope
        (data : jsval) (K : Buffer) (options : option cipher_options)
        (w w' : world) (env : CipherEnvelope) :
  (forall o, options = Some o ->
             truthy (algorithm o) = false /\ truthy (iv o) = false) ->
  LibCrypto.encrypt data K options w = (Normal (Some env), w') ->
  env_algorithm env = JString "aes-256-ctr"
  /\ crypto.getCipher "aes-256-ctr" w = Some (crypto.aes_ctr 32)
  /\ List.length (hex_decode (env_iv env)) = iv_length (crypto.aes_ctr 32)
  /\ iv_length (crypto.aes_ctr 32) = 16
  /\ String.length (env_iv env) = 32.
Proof.
  intros Hopt H.
  set (o := match options with Some o => o | None => no_options end).
  assert (truthy (algorithm o) = false /\ truthy (iv o) = false) as [Ha Hi].
  { subst o. destruct options as [o|]; [now apply Hopt | split; reflexivity]. }
  unfold LibCrypto.encrypt in H. fold o in H. js_step_in H.
  destruct (str2buf data JUndefined) as [bufferData|e]; [|discriminate].
  rewrite (@createCipher_default K o w Ha Hi) in H.
  destruct (negb (List.length K =? 32)); [discriminate|].
  unfold crypto.cipher_update_final in H. js_step_in H.
  destruct (crypto.toBuf bufferData) as [d|e]; [|discriminate].
  cbv beta iota zeta delta [toString encipher crypto.aes_ctr crypto.impl] in H.
  apply (f_equal (fun r => match fst r with
                           | Normal (Some e) => e
                           | _ => env
                           end)) in H.
  cbv beta iota delta [fst] in H. subst env. unfold env_algorithm, env_iv.
  rewrite hex_decode_toString_hex, toString_hex_length, draw_length.
  repeat split.
Qed.

Lemma encrypt_default_envelope_witness :
  env_algorithm
    {| env_algorithm := JString "aes-256-ctr";
       env_iv := "000102030405060708090a0b0c0d0e0f";
       cipherText := hex_decode "320b683b67" |}
  = JString "aes-256-ctr"
  /\ crypto.getCipher "aes-256-ctr" world0 = Some (crypto.aes_ctr 32)
  /\ List.length (hex_decode "000102030405060708090a0b0c0d0e0f")
     = iv_length (crypto.aes_ctr 32)
  /\ iv_length (crypto.aes_ctr 32) = 16
  /\ String.length "000102030405060708090a0b0c0d0e0f" = 32.
Proof.
  apply (@encrypt_default_envelope (JString "hello") key0 None world0
                                   (crypto.advance 16 world0)).
  - intros o Ho. discriminate Ho.
  - rewrite (@encrypt_default (JString "hello") (utf8_encode "hello") key0 world0)
      by reflexivity.
    vm_compute. reflexivity.
Defined.

(* ------------------------------------------------------------------ *)
(** *** Failures of [decrypt] *)

(** Whatever is thrown inside [decrypt] is caught, written to the console
    and turned into [null]. *)
Lemma decrypt_never_throws
      (data : jsval) (K : Buffer) (options : option cipher_options) (w : world) :
  exists r w', LibCrypto.decrypt data K options w = (Normal r, w').
Proof.
  unfold LibCrypto.decrypt, try_catch.
  match goal with |- context [let (c, w') := ?body w in _] =>
    destruct (body w) as [[a|e] w1] end.
  - eexists _, _. reflexivity.
  - eexists _, _. reflexivity.
Qed.

Lemma encrypt_never_throws
      (data : jsval) (K : Buffer) (options : option cipher_options) (w : world) :
  exists r w', LibCrypto.encrypt data K options w = (Normal r, w').
Proof.
  unfold LibCrypto.encrypt, try_catch.
  match goal with |- context [let (c, w') := ?body w in _] =>
    destruct (body w) as [[a|e] w1] end.
  - eexists _, _. reflexivity.
  - eexists _, _. reflexivity.
Qed.

(** C4 (as amended).  Under the default algorithm, a key that is not 32
    bytes long or an iv that does not decode to 16 bytes makes [decrypt]
    return [null] after writing the exception to the console: no error
    reaches the caller.  The counter-mode cipher itself rejects no cipher
    text: with a good key and iv, a cipher text of any length is
    deciphered to as many bytes. *)
Theorem decrypt_returns_null_on_mismatch
        (data : jsval) (K : Buffer) (o : cipher_options) (w : world)
        (ivs : string) :
  truthy (algorithm o) = false ->
  iv o = JString ivs -> ivs <> EmptyString ->
  List.length K <> 32 \/ List.length (hex_decode ivs) <> 16 ->
  (exists e,
      LibCrypto.decrypt data K (Some o) w = (Normal None, logged (LogError e) w))
  /\ (forall (C K' ivb : Buffer),
         List.length K' = 32 -> List.length ivb = 16 ->
         exists P,
           LibCrypto.decrypt (JBuffer C) K'
             (Some {| algorithm := algorithm o;
                      iv := JString (toString_hex ivb);
                      cipherEncoding := JUndefined |}) w
           = (Normal (Some P), w)
           /\ List.length P = List.length C).
Proof.
  intros Ha Hi Hne Hbad. split.
  - unfold LibCrypto.decrypt, crypto.createDecipheriv. js_step.
    rewrite (@js_or_falsy _ _ Ha), Hi.
    assert (truthy (JString ivs) = true) as ->.
    { cbn [truthy]. destruct ivs; [congruence|reflexivity]. }
    destruct (str2buf data _) as [binData|e]; [|eexists; reflexivity].
    change (str2buf (JString ivs) (JString "hex"))
      with (Normal (A:=jsval) (JBuffer (hex_decode ivs))).
    js_step. rewrite newCipheriv_aes256ctr.
    destruct (List.length (hex_decode ivs) =? 16) eqn:EI; cbn [negb];
      [|eexists; reflexivity].
    destruct (List.length K =? 32) eqn:EK; cbn [negb];
      [|eexists; reflexivity].
    apply Nat.eqb_eq in EK, EI. destruct Hbad; contradiction.
  - intros C K' ivb HK HI. eexists. split.
    + unfold LibCrypto.decrypt, crypto.createDecipheriv. js_step.
      cbn [algorithm iv cipherEncoding].
      rewrite (@js_or_falsy _ _ Ha).
      rewrite truthy_hex by (intros ->; discriminate).
      cbn [truthy js_or negb String.eqb Ascii.eqb Bool.eqb isString str2buf].
      change (Buffer_from (toString_hex ivb) (JString "hex"))
        with (Normal (hex_decode (toString_hex ivb))).
      rewrite hex_decode_toString_hex. js_step.
      rewrite newCipheriv_aes256ctr, HK, HI.
      reflexivity.
    + apply ctr_from_length.
Qed.

Definition short_key : Buffer := repeat x00 31.

Definition hex_iv_options : cipher_options :=
  {| algorithm := JUndefined;
     iv := JString "000102030405060708090a0b0c0d0e0f";
     cipherEncoding := JUndefined |}.

Lemma decrypt_returns_null_on_mismatch_witness :
  (exists e,
      LibCrypto.decrypt (JBuffer [x01; x02; x03]) short_key
                        (Some hex_iv_options) world0
      = (Normal None, logged (LogError e) world0))
  /\ (forall (C K' ivb : Buffer),
         List.length K' = 32 -> List.length ivb = 16 ->
         exists P,
           LibCrypto.decrypt (JBuffer C) K'
             (Some {| algorithm := algorithm hex_iv_options;
                      iv := JString (toString_hex ivb);
                      cipherEncoding := JUndefined |}) world0
           = (Normal (Some P), world0)
           /\ List.length P = List.length C).
Proof.
  apply (@decrypt_returns_null_on_mismatch
           (JBuffer [x01; x02; x03]) short_key hex_iv_options world0
           "000102030405060708090a0b0c0d0e0f").
  - reflexivity.
  - reflexivity.
  - discriminate.
  - left. vm_compute. discriminate.
Defined.

(** C4 (as stated) fails: with a 31-byte key [decrypt] returns [null] and
    throws nothing, and a cipher text of odd length (any length) under a
    good key is deciphered rather than rejected. *)
Lemma decrypt_wrong_key_returns_null :
  fst (LibCrypto.decrypt (JBuffer [x01; x02; x03]) short_key
                         (Some hex_iv_options) world0)
  = Normal None
  /\ console (snd (LibCrypto.decrypt (JBuffer [x01; x02; x03]) short_key
                                     (Some hex_iv_options) world0))
     = [LogError (Error "Invalid key length")]
  /\ fst (LibCrypto.decrypt (JBuffer [x01; x02; x03]) key0
                            (Some hex_iv_options) world0)
     = Normal (Some [x5b; x6c; x07]).
Proof. vm_compute. repeat split. Qed.

(* ------------------------------------------------------------------ *)
(** *** The missing [zeros] *)

(** C10.  No binding of [zeros] is in scope of the module, so evaluating
    the default of an omitted (or falsy) iv throws a [ReferenceError]:
    [createDecipher] lets it escape, [decrypt] catches it, writes it to
    the console and returns [null]. *)
Theorem zeros_never_defined
        (data : jsval) (K : Buffer) (o : cipher_options) (w : world) :
  truthy (iv o) = false ->
  in_scope "zeros" = false
  /\ (forall n, zeros n = Throw (ReferenceError "zeros"))
  /\ LibCrypto.createDecipher K (Some o) w = (Throw (ReferenceError "zeros"), w)
  /\ LibCrypto.decrypt data K (Some o) w
     = (Normal None, logged (LogError (ReferenceError "zeros")) w).
Proof.
  intros Hi. repeat split.
  - unfold LibCrypto.createDecipher. js_step. rewrite Hi. reflexivity.
  - unfold LibCrypto.decrypt. js_step. rewrite Hi. reflexivity.
Qed.

Lemma zeros_never_defined_witness :
  in_scope "zeros" = false
  /\ (forall n, zeros n = Throw (ReferenceError "zeros"))
  /\ LibCrypto.createDecipher key0 (Some no_options) world0
     = (Throw (ReferenceError "zeros"), world0)
  /\ LibCrypto.decrypt (JBuffer [x01]) key0 (Some no_options) world0
     = (Normal None, logged (LogError (ReferenceError "zeros")) world0).
Proof.
  apply (@zeros_never_defined (JBuffer [x01]) key0 no_options world0).
  reflexivity.
Defined.

(* ================================================================== *)
(** ** Key strengthening *)

(** The key [deriveSecretKey] returns, or what it throws. *)
Definition key_of (r : completion secret_key * world) : completion Buffer :=
  match fst r with
  | Normal sk => Normal (sk_key sk)
  | Throw e => Throw e
  end.

Definition with_salt (o : kdf_options) (salt : jsval) : kdf_options :=
  {| opt_hashAlg := opt_hashAlg o; opt_info := opt_info o;
     opt_size := opt_size o; opt_salt := salt |}.

(** HMAC pads a short key with zero bytes, so trailing zero bytes of the
    key are not seen. *)
Lemma block_key_zero_padding (d : digest_impl) (s : Buffer) (k : nat) :
  List.length s + k <= block_size d ->
  Hmac.block_key d (s ++ repeat x00 k) = Hmac.block_key d s.
Proof.
  intros H. unfold Hmac.block_key.
  assert ((block_size d <? List.length (s ++ repeat x00 k)) = false) as ->
    by (apply Nat.ltb_ge; rewrite length_app, repeat_length; lia).
  assert ((block_size d <? List.length s) = false) as ->
    by (apply Nat.ltb_ge; lia).
  rewrite <- app_assoc, <- repeat_app, length_app, repeat_length.
  do 2 f_equal. lia.
Qed.

Lemma hmac_zero_padding (d : digest_impl) (s msg : Buffer) (k : nat) :
  List.length s + k <= block_size d ->
  Hmac.hmac d (s ++ repeat x00 k) msg = Hmac.hmac d s msg.
Proof. intros H. unfold Hmac.hmac. now rewrite block_key_zero_padding. Qed.

Lemma getDigest_same_host (name : string) (w1 w2 : world) :
  host_digests w1 = host_digests w2 ->
  Hmac.getDigest name w1 = Hmac.getDigest name w2.
Proof. intros H. unfold Hmac.getDigest. now rewrite H. Qed.

(** With a salt given, [deriveSecretKey] reads no entropy: in any state
    with the same host digests it returns the same result and leaves the
    state as it was. *)
Lemma deriveSecretKey_salted (secret : Buffer) (o : kdf_options) (w w' : world) :
  truthy (opt_salt o) = true ->
  host_digests w' = host_digests w ->
  LibCrypto.deriveSecretKey secret (Some o) w'
  = (fst (LibCrypto.deriveSecretKey secret (Some o) w), w').
Proof.
  intros Hs Hw.
  unfold LibCrypto.deriveSecretKey, HKDF.new, Hmac.createHash. js_step.
  rewrite Hs. js_step.
  destruct (str2buf (opt_salt o) (JString "hex")) as [salt|e]; [|reflexivity].
  destruct (js_or (opt_hashAlg o) (JString "sha256")) as [| |name|b];
    try reflexivity.
  rewrite (@getDigest_same_host name w' w Hw).
  destruct (Hmac.getDigest name w) as [d|]; [|reflexivity].
  js_step.
  destruct (if truthy salt then crypto.toBuf salt else _); [|reflexivity].
  destruct (HKDF.derive _ _ _); [|reflexivity].
  destruct (toString salt); reflexivity.
Qed.

(** C5 (as amended).  With a non-empty salt, [deriveSecretKey] returns the
    same result on every invocation, whatever the entropy, as long as the
    host's digests are the same; it consumes no entropy.  Different salts
    need not give different keys: under the default digest, a salt and the
    same salt followed by zero bytes (up to the 64-byte block of SHA-256)
    give the same key. *)
Theorem deriveSecretKey_deterministic
        (secret : Buffer) (o : kdf_options) (w1 w2 : world) :
  truthy (opt_salt o) = true ->
  host_digests w1 = host_digests w2 ->
  fst (LibCrypto.deriveSecretKey secret (Some o) w1)
  = fst (LibCrypto.deriveSecretKey secret (Some o) w2)
  /\ snd (LibCrypto.deriveSecretKey secret (Some o) w1) = w1
  /\ (forall (s : Buffer) (k : nat),
         truthy (opt_hashAlg o) = false ->
         List.length s + k <= 64 ->
         key_of (LibCrypto.deriveSecretKey secret
                   (Some (with_salt o (JBuffer (s ++ repeat x00 k)))) w1)
         = key_of (LibCrypto.deriveSecretKey secret
                     (Some (with_salt o (JBuffer s))) w1)).
Proof.
  intros Hs Hw.
  rewrite (@deriveSecretKey_salted secret o w1 w2 Hs (eq_sym Hw)).
  split; [reflexivity|]. split.
  { now rewrite (@deriveSecretKey_salted secret o w1 w1 Hs eq_refl). }
  intros s k Hh Hk.
  unfold key_of, LibCrypto.deriveSecretKey, HKDF.new, Hmac.createHash.
  js_step. cbn [with_salt opt_salt opt_hashAlg opt_info opt_size truthy].
  rewrite (@js_or_falsy _ (JString "sha256") Hh).
  cbn [str2buf isString]. js_step.
  change (Hmac.getDigest "sha256" w1) with (Some SHA256.impl).
  cbn [truthy crypto.toBuf].
  rewrite (@hmac_zero_padding SHA256.impl s secret k Hk).
  destruct (HKDF.derive _ _ _); reflexivity.
Qed.

Definition secret0 : Buffer := utf8_encode "secret".

Definition salted (s : string) : kdf_options :=
  {| opt_hashAlg := JUndefined; opt_info := JUndefined;
     opt_size := None; opt_salt := JString s |}.

(** A second state of the process: other entropy, same host. *)
Definition world1 : world :=
  {| entropy := fun i => byte_of_N (N.of_nat (255 - i));
     consumed := 7;
     console := [];
     host_ciphers := fun _ => None;
     host_digests := fun _ => None |}.

Lemma deriveSecretKey_deterministic_witness :
  fst (LibCrypto.deriveSecretKey secret0 (Some (salted "aabb")) world0)
  = fst (LibCrypto.deriveSecretKey secret0 (Some (salted "aabb")) world1)
  /\ snd (LibCrypto.deriveSecretKey secret0 (Some (salted "aabb")) world0)
     = world0
  /\ (forall (s : Buffer) (k : nat),
         truthy (opt_hashAlg (salted "aabb")) = false ->
         List.length s + k <= 64 ->
         key_of (LibCrypto.deriveSecretKey secret0
                   (Some (with_salt (salted "aabb")
                                    (JBuffer (s ++ repeat x00 k)))) world0)
         = key_of (LibCrypto.deriveSecretKey secret0
                     (Some (with_salt (salted "aabb") (JBuffer s))) world0)).
Proof.
  apply (@deriveSecretKey_deterministic secret0 (salted "aabb") world0 world1);
    reflexivity.
Defined.

(** C5 (as stated) fails in its second half: the salts 00 and 0000 differ,
    as strings and as bytes, and give the same key. *)
Lemma deriveSecretKey_salt_collision :
  hex_decode "00" <> hex_decode "0000"
  /\ key_of (LibCrypto.deriveSecretKey secret0 (Some (salted "00")) world0)
     = key_of (LibCrypto.deriveSecretKey secret0 (Some (salted "0000")) world0)
  /\ key_of (LibCrypto.deriveSecretKey secret0 (Some (salted "00")) world0)
     = Normal (hex_decode
         "43214f48583c675dd7897d9a10647bb85d36953517fca5ac50f4033b895dbca7").
Proof. vm_compute. repeat split. discriminate. Qed.

(** Three blocks of output, cut to the size asked for. *)
Example deriveSecretKey_70_bytes :
  key_of (LibCrypto.deriveSecretKey secret0
            (Some {| opt_hashAlg := JUndefined; opt_info := JUndefined;
                     opt_size := Some 70; opt_salt := JString "aabb" |})
            world0)
  = Normal (hex_decode
      ("cdadfc8c401a6640e40993ca1409b08e0312451a194e543b96bd2d1d30d72b24"
       ++ "b57967643d0a8fa960186a3d8ef730fd424e8f0c81afa80fda0f42fdb255b69a"
       ++ "d1a8aca9df17")).
Proof. vm_compute. reflexivity. Qed.

(** Without a salt the result depends on the entropy: two states give two
    keys. *)
Example deriveSecretKey_random_salt :
  key_of (LibCrypto.deriveSecretKey secret0 None world0)
  <> key_of (LibCrypto.deriveSecretKey secret0 None world1).
Proof. vm_compute. discriminate. Qed.

Open Scope Z_scope.

(* ================================================================== *)
(** ** Elliptic curves: the laws assumed of a curve *)

(** What the proofs below use of a curve: its valid points form a group
    under [add] in which [g] has order exactly the prime [n], the field is
    smaller than twice [n], and the conversions invert one another on
    finite valid points.  These are the textbook facts about secp256k1;
    for [tiny] they are checked by enumeration further down. *)
Record curve_laws (c : EC.curve) : Prop := {
  n_gt_1 : 1 < EC.n c;
  n_coprime : forall a, 0 < a < EC.n c -> Z.gcd a (EC.n c) = 1;
  p_lt_2n : EC.p c < 2 * EC.n c;
  valid_infinity : EC.validate c (EC.infinity c) = true;
  valid_g : EC.validate c (EC.g c) = true;
  valid_add : forall P Q,
      EC.validate c P = true -> EC.validate c Q = true ->
      EC.validate c (EC.add c P Q) = true;
  add_assoc : forall P Q R,
      EC.validate c P = true -> EC.validate c Q = true ->
      EC.validate c R = true ->
      EC.add c (EC.add c P Q) R = EC.add c P (EC.add c Q R);
  add_infinity_l : forall P,
      EC.validate c P = true -> EC.add c (EC.infinity c) P = P;
  add_infinity_r : forall P,
      EC.validate c P = true -> EC.add c P (EC.infinity c) = P;
  isInfinity_infinity : EC.isInfinity c (EC.infinity c) = true;
  order_g : EC.mul c (EC.n c) (EC.g c) = EC.infinity c;
  order_exact : forall k,
      0 < k < EC.n c -> EC.isInfinity c (EC.mul c k (EC.g c)) = false;
  getX_range : forall P,
      EC.validate c P = true -> EC.isInfinity c P = false ->
      0 <= EC.getX c P < EC.p c;
  pointFromX_getX : forall P,
      EC.validate c P = true -> EC.isInfinity c P = false ->
      EC.pointFromX c (EC.getX c P) (Z.odd (EC.getY c P)) = Some P;
  decode_encode : forall P,
      EC.validate c P = true -> EC.isInfinity c P = false ->
      EC.decodePoint c (EC.encode c P) = Some P
}.

(* ------------------------------------------------------------------ *)
(** *** The modular inverse

    [egcd] keeps the Bezout identity at every step, and its second
    argument is more than halved every two steps, so the fuel [invm]
    gives it suffices. *)

Lemma egcd_bezout (f : nat) : forall a b g x y,
  egcd f a b = (g, x, y) -> a * x + b * y = g.
Proof.
  induction f as [|f IH]; intros a b g x y H; cbn [egcd] in H.
  - inversion H; subst. ring.
  - destruct (b =? 0) eqn:Hb.
    + inversion H; subst. ring.
    + destruct (egcd f b (a mod b)) as [[g' x'] y'] eqn:E.
      inversion H; subst. apply IH in E.
      apply Z.eqb_neq in Hb.
      pose proof (Z.div_mod a b Hb) as Hd.
      rewrite <- E. rewrite Hd at 1. ring.
Qed.

Lemma mod_halves (x y : Z) : 0 < y <= x -> 2 * (x mod y) < x.
Proof.
  intros H.
  pose proof (Z.mod_pos_bound x y ltac:(lia)) as Hm.
  pose proof (Z.div_mod x y ltac:(lia)) as Hd.
  assert (1 <= x / y) by (apply Z.div_le_lower_bound; lia).
  nia.
Qed.

Lemma egcd_gcd (k : nat) : forall (f : nat) a b g x y,
  (2 * k + 1 <= f)%nat -> 0 <= a -> 0 <= b < 2 ^ Z.of_nat k ->
  egcd f a b = (g, x, y) -> g = Z.gcd a b.
Proof.
  induction k as [|k IH]; intros f a b g x y Hf Ha Hb H.
  - assert (b = 0) by (change (2 ^ Z.of_nat 0) with 1 in Hb; lia). subst b.
    destruct f as [|f]; [lia|]. cbn in H. inversion H; subst.
    rewrite Z.gcd_0_r, Z.abs_eq; lia.
  - destruct f as [|f]; [lia|]. cbn [egcd] in H.
    destruct (b =? 0) eqn:Eb.
    + apply Z.eqb_eq in Eb. subst b. inversion H; subst.
      rewrite Z.gcd_0_r, Z.abs_eq; lia.
    + apply Z.eqb_neq in Eb.
      destruct (egcd f b (a mod b)) as [[g1 x1] y1] eqn:E1.
      inversion H; subst g1. clear H.
      pose proof (Z.mod_pos_bound a b ltac:(lia)) as Hm.
      rewrite (Z.gcd_comm a b), <- (Z.gcd_mod a b) by lia.
      destruct f as [|f]; [lia|]. cbn [egcd] in E1.
      destruct (a mod b =? 0) eqn:Em.
      * apply Z.eqb_eq in Em. rewrite Em. inversion E1; subst.
        rewrite Z.gcd_0_l, Z.abs_eq; lia.
      * apply Z.eqb_neq in Em.
        destruct (egcd f (a mod b) (b mod (a mod b))) as [[g2 x2] y2] eqn:E2.
        inversion E1; subst g2.
        rewrite <- (Z.gcd_mod b (a mod b)), Z.gcd_comm by lia.
        pose proof (Z.mod_pos_bound b (a mod b) ltac:(lia)).
        pose proof (@mod_halves b (a mod b) ltac:(lia)).
        rewrite Nat2Z.inj_succ, Z.pow_succ_r in Hb by lia.
        apply (IH f (a mod b) (b mod (a mod b)) g x2 y2); [lia | lia | lia | exact E2].
Qed.

Lemma invm_spec (a m : Z) : 1 < m -> Z.gcd a m = 1 -> (a * invm a m) mod m = 1.
Proof.
  intros Hm Hg. unfold invm.
  destruct (egcd _ (a mod m) m) as [[g x] y] eqn:E.
  pose proof (@egcd_bezout _ _ _ _ _ _ E) as Hbz.
  assert (g = 1) as ->.
  { rewrite <- Hg, (Z.gcd_comm a m), <- (Z.gcd_mod a m) by lia.
    pose proof (Z.log2_up_spec m Hm) as [_ Hl].
    pose proof (Z.log2_up_nonneg m).
    eapply (@egcd_gcd (Z.to_nat (Z.log2_up m + 1))); [ | | | exact E].
    - lia.
    - apply Z.mod_pos_bound; lia.
    - rewrite Z2Nat.id by lia. rewrite Z.pow_add_r by lia. lia. }
  rewrite Z.mul_mod_idemp_r by lia.
  rewrite <- (Z.mul_mod_idemp_l a) by lia.
  replace (a mod m * x) with (1 + (- y) * m) by lia.
  rewrite Z.mod_add by lia. apply Z.mod_1_l; lia.
Qed.

(** What a signature made with the nonce [k] records of the point
    [k * g]: its x-coordinate modulo [n], and in [recoveryParam] the
    parity of its y-coordinate and whether the reduction changed x. *)
Definition sig_r_ok (c : EC.curve) (sg : EC.Signature) (k : Z) : Prop :=
  let kp := EC.mul c k (EC.g c) in
  EC.sig_r sg = EC.getX c kp mod EC.n c
  /\ EC.sig_r sg <> 0
  /\ EC.recoveryParam sg
     = Z.lor (if Z.odd (EC.getY c kp) then 1 else 0)
             (if EC.getX c kp =? EC.sig_r sg then 0 else 2).

(* ================================================================== *)
(** ** Elliptic-curve keys: what holds on every curve that is a group *)

Section GroupFacts.

Variable c : EC.curve.
Hypothesis L : curve_laws c.

Local Notation "'valid' P" := (EC.validate c P = true) (at level 10, P at level 9).
Local Notation "P +' Q" := (EC.add c P Q) (at level 50, left associativity).

Lemma add_valid (P Q : EC.point c) : valid P -> valid Q -> valid (P +' Q).
Proof. apply (valid_add L). Qed.

Lemma infinity_valid : valid (EC.infinity c).
Proof. apply (valid_infinity L). Qed.

Lemma g_valid : valid (EC.g c).
Proof. apply (valid_g L). Qed.

Local Hint Resolve add_valid infinity_valid g_valid : core.

Lemma pmul_valid (k : positive) (P : EC.point c) : valid P -> valid (EC.pmul c k P).
Proof.
  intros HP. induction k as [k IH|k IH|]; cbn [EC.pmul]; auto.
Qed.

Lemma mul_valid (k : Z) (P : EC.point c) : valid P -> valid (EC.mul c k P).
Proof.
  intros HP. destruct k; cbn [EC.mul]; auto using pmul_valid.
Qed.

Local Hint Resolve pmul_valid mul_valid : core.

Lemma pmul_comm (k : positive) (P : EC.point c) :
  valid P -> P +' EC.pmul c k P = EC.pmul c k P +' P.
Proof.
  intros HP. induction k as [k IH|k IH|]; cbn [EC.pmul].
  - pose proof (@pmul_valid k P HP) as HQ.
    set (Q := EC.pmul c k P) in *.
    rewrite <- !(add_assoc L) by auto.
    rewrite IH. rewrite (add_assoc L Q P Q) by auto.
    rewrite IH. rewrite <- (add_assoc L) by auto. reflexivity.
  - pose proof (@pmul_valid k P HP) as HQ.
    set (Q := EC.pmul c k P) in *.
    rewrite <- (add_assoc L) by auto. rewrite IH.
    rewrite (add_assoc L) by auto. rewrite IH.
    rewrite <- (add_assoc L) by auto. reflexivity.
  - reflexivity.
Qed.

Lemma pmul_succ (k : positive) (P : EC.point c) :
  valid P -> EC.pmul c (Pos.succ k) P = EC.pmul c k P +' P.
Proof.
  intros HP. induction k as [k IH|k IH|]; cbn [EC.pmul Pos.succ].
  - rewrite IH.
    pose proof (@pmul_valid k P HP) as HQ.
    pose proof (@pmul_comm k P HP) as HC.
    set (Q := EC.pmul c k P) in *.
    rewrite (add_assoc L Q P (Q +' P)) by auto.
    rewrite <- (add_assoc L P Q P) by auto.
    rewrite HC. rewrite (add_assoc L Q P P) by auto.
    rewrite <- (add_assoc L Q Q (P +' P)) by auto.
    rewrite <- (add_assoc L (Q +' Q) P P) by auto.
    reflexivity.
  - reflexivity.
  - reflexivity.
Qed.

Lemma pmul_add (a b : positive) (P : EC.point c) :
  valid P -> EC.pmul c (a + b) P = EC.pmul c a P +' EC.pmul c b P.
Proof.
  intros HP. induction b as [|b IH] using Pos.peano_ind.
  - rewrite Pos.add_1_r. now apply pmul_succ.
  - rewrite Pos.add_succ_r, !pmul_succ, IH by assumption.
    rewrite (add_assoc L) by auto using pmul_valid. reflexivity.
Qed.

Lemma pmul_mul (a b : positive) (P : EC.point c) :
  valid P -> EC.pmul c (a * b) P = EC.pmul c a (EC.pmul c b P).
Proof.
  intros HP. induction a as [|a IH] using Pos.peano_ind.
  - now rewrite Pos.mul_1_l.
  - rewrite Pos.mul_succ_l, pmul_add, IH by assumption.
    rewrite pmul_succ by auto using pmul_valid.
    apply pmul_comm; auto using pmul_valid.
Qed.

Lemma pmul_infinity (k : positive) : EC.pmul c k (EC.infinity c) = EC.infinity c.
Proof.
  induction k as [k IH|k IH|]; cbn [EC.pmul]; rewrite ?IH;
    rewrite ?(add_infinity_l L) by auto; reflexivity.
Qed.

Lemma mul_add (a b : Z) (P : EC.point c) :
  valid P -> 0 <= a -> 0 <= b ->
  EC.mul c (a + b) P = EC.mul c a P +' EC.mul c b P.
Proof.
  intros HP Ha Hb. destruct a as [|a|a], b as [|b|b]; try lia; cbn [EC.mul Z.add].
  - now rewrite (add_infinity_l L) by auto.
  - now rewrite (add_infinity_l L) by auto using pmul_valid.
  - now rewrite (add_infinity_r L) by auto using pmul_valid.
  - now apply pmul_add.
Qed.

Lemma mul_mul (a b : Z) (P : EC.point c) :
  valid P -> 0 <= a -> 0 <= b ->
  EC.mul c (a * b) P = EC.mul c a (EC.mul c b P).
Proof.
  intros HP Ha Hb. destruct a as [|a|a], b as [|b|b]; try lia; cbn [EC.mul Z.mul].
  - reflexivity.
  - reflexivity.
  - now rewrite pmul_infinity.
  - now apply pmul_mul.
Qed.

Lemma mul_mod_n (k : Z) :
  0 <= k -> EC.mul c (k mod EC.n c) (EC.g c) = EC.mul c k (EC.g c).
Proof.
  intros Hk. pose proof (n_gt_1 L) as Hn.
  pose proof (Z.mod_pos_bound k (EC.n c) ltac:(lia)).
  assert (0 <= k / EC.n c) by (apply Z.div_pos; lia).
  rewrite (Z.div_mod k (EC.n c)) at 2 by lia.
  rewrite mul_add by (auto; nia).
  rewrite (Z.mul_comm (EC.n c)), mul_mul by (auto; lia).
  rewrite (order_g L).
  destruct (k / EC.n c); cbn [EC.mul]; rewrite ?pmul_infinity;
    now rewrite (add_infinity_l L) by auto.
Qed.


(* ---------------------------------------------------------------- *)
(** *** ECDH *)

Lemma keyFromPrivate_range (priv : Buffer) : 0 <= EC.keyFromPrivate c priv < EC.n c.
Proof. unfold EC.keyFromPrivate. apply Z.mod_pos_bound. pose proof (n_gt_1 L). lia. Qed.

Lemma private2public_inv (priv pub : Buffer) :
  LibCrypto.private2public c priv = Normal pub ->
  0 < EC.keyFromPrivate c priv < EC.n c
  /\ EC.isInfinity c (EC.mul c (EC.keyFromPrivate c priv) (EC.g c)) = false
  /\ pub = EC.encode c (EC.mul c (EC.keyFromPrivate c priv) (EC.g c)).
Proof.
  unfold LibCrypto.private2public, EC.encodePoint, EC.getPublic. intros H.
  pose proof (keyFromPrivate_range priv) as Hr.
  destruct (EC.isInfinity c _) eqn:E; [discriminate|].
  inversion H; subst. repeat split; try lia.
  destruct (Z.eq_dec (EC.keyFromPrivate c priv) 0) as [E0|]; [|lia].
  rewrite E0 in E. cbn [EC.mul] in E. rewrite (isInfinity_infinity L) in E. discriminate.
Qed.

Lemma product_not_multiple (a b : Z) :
  0 < a < EC.n c -> 0 < b < EC.n c -> 0 < (a * b) mod EC.n c < EC.n c.
Proof.
  intros Ha Hb. pose proof (n_gt_1 L) as Hn.
  pose proof (Z.mod_pos_bound (a * b) (EC.n c) ltac:(lia)) as Hm.
  destruct (Z.eq_dec ((a * b) mod EC.n c) 0) as [E|]; [|lia].
  exfalso. apply Z.mod_divide in E; [|lia].
  apply Z.gauss in E.
  - apply Z.divide_pos_le in E; lia.
  - rewrite Z.gcd_comm. now apply (n_coprime L).
Qed.

Lemma shared_point (a b : Z) :
  0 < a < EC.n c -> 0 < b < EC.n c ->
  EC.derive c a (EC.mul c b (EC.g c))
  = Normal (EC.getX c (EC.mul c ((a * b) mod EC.n c) (EC.g c))).
Proof.
  intros Ha Hb. unfold EC.derive, EC.getX_checked.
  rewrite <- mul_mul by (auto; lia).
  rewrite <- (@mul_mod_n (a * b)) by nia.
  now rewrite (order_exact L) by now apply product_not_multiple.
Qed.

(** C2.  For two key pairs of the curve, the secret derived from the first
    private key and the second public key is the secret derived from the
    second private key and the first public key, and both derivations
    return (no exception). *)
Theorem ecdh_symmetric (privA privB pubA pubB : Buffer) :
  LibCrypto.private2public c privA = Normal pubA ->
  LibCrypto.private2public c privB = Normal pubB ->
  exists secret,
    LibCrypto.deriveSharedKey c privA pubB = Normal secret
    /\ LibCrypto.deriveSharedKey c privB pubA = Normal secret.
Proof.
  intros HA HB.
  apply private2public_inv in HA as (Ha & Ia & ->).
  apply private2public_inv in HB as (Hb & Ib & ->).
  unfold LibCrypto.deriveSharedKey, EC.keyFromPublic.
  rewrite !(decode_encode L) by auto.
  rewrite !shared_point by assumption.
  rewrite (Z.mul_comm (EC.keyFromPrivate c privB)).
  eexists. split; reflexivity.
Qed.

(* ---------------------------------------------------------------- *)
(** *** ECDSA: sign, then recover *)

Lemma sign_loop_inv (fuel : nat) : forall (iter : nat) (d e : Z) (sg : EC.Signature),
  EC.sign_loop c fuel iter d e = Some sg ->
  exists k,
    1 < k < EC.n c - 1
    /\ EC.isInfinity c (EC.mul c k (EC.g c)) = false
    /\ sig_r_ok c sg k
    /\ EC.sig_s sg = (invm k (EC.n c) * (EC.sig_r sg * d + e)) mod EC.n c.
Proof.
  induction fuel as [|fuel IH]; intros iter d e sg H; cbn [EC.sign_loop] in H.
  - discriminate.
  - set (k := EC.truncateToN c (EC.drbg c d e iter) true) in *.
    destruct ((k <=? 1) || (EC.n c - 1 <=? k)) eqn:Ek; [eauto|].
    destruct (EC.isInfinity c (EC.mul c k (EC.g c))) eqn:Ei; [eauto|].
    destruct (EC.getX c (EC.mul c k (EC.g c)) mod EC.n c =? 0) eqn:Er; [eauto|].
    destruct (_ =? 0) eqn:Es in H; [eauto|].
    inversion H; subst sg; clear H.
    exists k. apply orb_false_iff in Ek as [E1 E2].
    apply Z.leb_gt in E1, E2. apply Z.eqb_neq in Er.
    unfold sig_r_ok. cbn [EC.sig_r EC.sig_s EC.recoveryParam].
    repeat split; auto; lia.
Qed.

(** More fuel does not change a signature that was returned. *)
Lemma sign_loop_more_fuel (fuel : nat) : forall (iter : nat) (d e : Z) (sg : EC.Signature),
  EC.sign_loop c fuel iter d e = Some sg ->
  EC.sign_loop c (S fuel) iter d e = Some sg.
Proof.
  induction fuel as [|fuel IH]; intros iter d e sg H.
  - discriminate.
  - remember (S fuel) as fuel' eqn:Ef.
    cbn [EC.sign_loop]. subst fuel'. cbn [EC.sign_loop] in H.
    set (k := EC.truncateToN c (EC.drbg c d e iter) true) in *.
    destruct ((k <=? 1) || (EC.n c - 1 <=? k)); [now apply IH|].
    destruct (EC.isInfinity c (EC.mul c k (EC.g c))); [now apply IH|].
    destruct (EC.getX c (EC.mul c k (EC.g c)) mod EC.n c =? 0); [now apply IH|].
    destruct (_ =? 0); [now apply IH|].
    exact H.
Qed.

(** As soon as the generator offers an acceptable nonce, the loop
    returns. *)
Lemma sign_loop_returns (fuel iter : nat) (d e : Z) :
  let k := EC.truncateToN c (EC.drbg c d e iter) true in
  let r := EC.getX c (EC.mul c k (EC.g c)) mod EC.n c in
  let s := (invm k (EC.n c) * (r * d + e)) mod EC.n c in
  1 < k < EC.n c - 1 ->
  EC.isInfinity c (EC.mul c k (EC.g c)) = false ->
  r <> 0 -> s <> 0 ->
  exists sg, EC.sign_loop c (S fuel) iter d e = Some sg.
Proof.
  cbv zeta. intros Hk Hi Hr Hs. cbn [EC.sign_loop].
  set (k := EC.truncateToN c (EC.drbg c d e iter) true) in *.
  assert ((k <=? 1) || (EC.n c - 1 <=? k) = false) as ->.
  { apply orb_false_iff. split; apply Z.leb_gt; lia. }
  rewrite Hi.
  apply Z.eqb_neq in Hr. rewrite Hr.
  apply Z.eqb_neq in Hs. rewrite Hs.
  eexists. reflexivity.
Qed.





End GroupFacts.

(* ================================================================== *)
(** ** The laws hold on the small curve (by enumeration) *)

Definition pt_eqb (P Q : Short.pt) : bool :=
  match P, Q with
  | None, None => true
  | Some (x1, y1), Some (x2, y2) => (x1 =? x2) && (y1 =? y2)
  | _, _ => false
  end.

Lemma pt_eqb_eq (P Q : Short.pt) : pt_eqb P Q = true -> P = Q.
Proof.
  destruct P as [[x1 y1]|], Q as [[x2 y2]|]; cbn; try discriminate; auto.
  intros H. apply andb_true_iff in H as [H1 H2].
  apply Z.eqb_eq in H1, H2. now subst.
Qed.

Definition opt_pt_eqb (P Q : option Short.pt) : bool :=
  match P, Q with
  | None, None => true
  | Some a, Some b => pt_eqb a b
  | _, _ => false
  end.

Lemma opt_pt_eqb_eq (P Q : option Short.pt) : opt_pt_eqb P Q = true -> P = Q.
Proof.
  destruct P, Q; cbn; try discriminate; auto.
  intros H. f_equal. now apply pt_eqb_eq.
Qed.

Definition zrange (k : nat) : list Z := map Z.of_nat (seq 0 k).

Lemma zrange_complete (k : nat) (x : Z) : 0 <= x < Z.of_nat k -> In x (zrange k).
Proof.
  intros H. unfold zrange. apply in_map_iff. exists (Z.to_nat x).
  split; [lia|]. apply in_seq. lia.
Qed.

Definition tiny_points : list Short.pt :=
  Eval vm_compute in map (fun k => EC.mul tiny k (EC.g tiny)) (zrange 31).

Lemma tiny_grid_check :
  forallb (fun x => forallb (fun y =>
     implb (EC.validate tiny (Some (x, y)))
           (existsb (pt_eqb (Some (x, y))) tiny_points))
     (zrange 43)) (zrange 43) = true.
Proof. vm_compute. reflexivity. Qed.

Lemma tiny_points_complete (P : EC.point tiny) :
  EC.validate tiny P = true -> In P tiny_points.
Proof.
  pose proof tiny_grid_check as H.
  destruct P as [[x y]|]; [|intros _; now left].
  intros HV. pose proof HV as HV'.
  cbn in HV'. rewrite !andb_true_iff in HV'.
  destruct HV' as [[[[Hx1 Hx2] Hy1] Hy2] _].
  apply Z.leb_le in Hx1, Hy1. apply Z.ltb_lt in Hx2, Hy2.
  rewrite forallb_forall in H. specialize (H x (@zrange_complete 43 x ltac:(lia))).
  rewrite forallb_forall in H. specialize (H y (@zrange_complete 43 y ltac:(lia))).
  rewrite HV in H. cbn [implb] in H.
  apply existsb_exists in H as (Q & HQ & E). apply pt_eqb_eq in E. now subst.
Qed.

Lemma tiny_forall (q : Short.pt -> bool) :
  forallb q tiny_points = true ->
  forall P : EC.point tiny, EC.validate tiny P = true -> q P = true.
Proof.
  intros H P HP. rewrite forallb_forall in H. apply H. now apply tiny_points_complete.
Qed.

Lemma tiny_coprime_check :
  forallb (fun a => (a =? 0) || (Z.gcd a 31 =? 1)) (zrange 31) = true.
Proof. vm_compute. reflexivity. Qed.

Lemma tiny_closed_check :
  forallb (fun P => forallb (fun Q => EC.validate tiny (EC.add tiny P Q)) tiny_points)
          tiny_points = true.
Proof. vm_compute. reflexivity. Qed.

Lemma tiny_assoc_check :
  forallb (fun P => forallb (fun Q => forallb (fun R =>
     pt_eqb (EC.add tiny (EC.add tiny P Q) R) (EC.add tiny P (EC.add tiny Q R)))
     tiny_points) tiny_points) tiny_points = true.
Proof. vm_compute. reflexivity. Qed.

Lemma tiny_order_check :
  forallb (fun k => (k =? 0) || negb (EC.isInfinity tiny (EC.mul tiny k (EC.g tiny))))
          (zrange 31) = true.
Proof. vm_compute. reflexivity. Qed.

Lemma tiny_coordinates_check :
  forallb (fun P => EC.isInfinity tiny P
     || ((0 <=? EC.getX tiny P) && (EC.getX tiny P <? EC.p tiny)
         && opt_pt_eqb (EC.pointFromX tiny (EC.getX tiny P) (Z.odd (EC.getY tiny P))) (Some P)
         && opt_pt_eqb (EC.decodePoint tiny (EC.encode tiny P)) (Some P)))
    tiny_points = true.
Proof. vm_compute. reflexivity. Qed.

Lemma tiny_laws : curve_laws tiny.
Proof.
  constructor.
  - reflexivity.
  - intros a Ha. change (EC.n tiny) with 31 in *.
    pose proof tiny_coprime_check as H.
    rewrite forallb_forall in H. specialize (H a (@zrange_complete 31 a ltac:(lia))).
    apply orb_true_iff in H as [H|H]; apply Z.eqb_eq in H; lia.
  - reflexivity.
  - reflexivity.
  - reflexivity.
  - intros P Q HP HQ.
    apply (tiny_forall _ tiny_closed_check) in HP.
    rewrite forallb_forall in HP. apply HP. now apply tiny_points_complete.
  - intros P Q R HP HQ HR. apply pt_eqb_eq.
    apply (tiny_forall _ tiny_assoc_check) in HP.
    rewrite forallb_forall in HP. specialize (HP Q (@tiny_points_complete Q HQ)).
    rewrite forallb_forall in HP. apply HP. now apply tiny_points_complete.
  - reflexivity.
  - intros [[x y]|] _; reflexivity.
  - reflexivity.
  - vm_compute. reflexivity.
  - intros k Hk. change (EC.n tiny) with 31 in *.
    pose proof tiny_order_check as H.
    rewrite forallb_forall in H. specialize (H k (@zrange_complete 31 k ltac:(lia))).
    apply orb_true_iff in H as [H|H]; [apply Z.eqb_eq in H; lia|].
    now apply negb_true_iff in H.
  - intros P HP HI.
    apply (tiny_forall _ tiny_coordinates_check) in HP.
    rewrite HI in HP. cbn [orb] in HP. rewrite !andb_true_iff in HP.
    destruct HP as [[[H1 H2] _] _].
    apply Z.leb_le in H1. apply Z.ltb_lt in H2. lia.
  - intros P HP HI. apply opt_pt_eqb_eq.
    apply (tiny_forall _ tiny_coordinates_check) in HP.
    rewrite HI in HP. cbn [orb] in HP. rewrite !andb_true_iff in HP.
    now destruct HP as [[_ H] _].
  - intros P HP HI. apply opt_pt_eqb_eq.
    apply (tiny_forall _ tiny_coordinates_check) in HP.
    rewrite HI in HP. cbn [orb] in HP. rewrite !andb_true_iff in HP.
    now destruct HP as [_ H].
Qed.

Lemma ecdh_symmetric_witness :
  exists secret,
    LibCrypto.deriveSharedKey tiny [x05] [x04; x28; x19] = Normal secret
    /\ LibCrypto.deriveSharedKey tiny [x0b] [x04; x0c; x0c] = Normal secret.
Proof.
  apply (@ecdh_symmetric tiny tiny_laws [x05] [x0b] [x04; x0c; x0c]
                         [x04; x28; x19]); reflexivity.
Defined.


(** On secp256k1 itself the functions evaluate: the base point is on the
    curve and the public key of the private key 2 is the well-known
    double of the base point. *)
Example secp256k1_public_key_of_2 :
  EC.validate (secp256k1 tiny_gen) (EC.g (secp256k1 tiny_gen)) = true
  /\ LibCrypto.private2public (secp256k1 tiny_gen) (bytes_of_N 32 2)
     = Normal (hex_decode
         ("04c6047f9441ed7d6d3045406e95c07cd85c778e4b8cef3ca7abac09b95c709ee5"
          ++ "1ae168fea63dc339a3c58419466ceaeef7f632653266d0e1236431a950cfe52a")).
Proof. vm_compute. split; reflexivity. Qed.

Close Scope Z_scope.

(* ================================================================== *)
(** ** The harvester

    The script subscribes to one kind of contract event and hands the
    content identifiers of every event it is given to
    [redundant.pull].  Both the ledger and the retrieval call back later,
    so the process is modelled as a loop over the callbacks the event loop
    runs, in the order it runs them. *)

Module Harvester.

Inductive eventType : Type :=
| NewFileAppeared
| EcTagRegistered
| EcTagDelegated.

(** A contract event with its [blockNumber] and its [args]: [ipfs], or
    [ipfsOrigin] and [ipfsNew], as big numbers. *)
Inductive event : Type :=
| FileAppeared (blockNumber : Z) (ipfs : Z)
| TagRegistered (blockNumber : Z) (ipfs : Z)
| TagDelegated (blockNumber : Z) (ipfsOrigin ipfsNew : Z).

Definition kind (ev : event) : eventType :=
  match ev with
  | FileAppeared _ _ => NewFileAppeared
  | TagRegistered _ _ => EcTagRegistered
  | TagDelegated _ _ _ => EcTagDelegated
  end.

Definition blockNumber (ev : event) : Z :=
  match ev with
  | FileAppeared b _ | TagRegistered b _ | TagDelegated b _ _ => b
  end.

(** [event.args.<name>]; an argument the event does not carry reads
    [undefined], here [None]. *)
Definition args_ipfs (ev : event) : option Z :=
  match ev with
  | FileAppeared _ h | TagRegistered _ h => Some h
  | TagDelegated _ _ _ => None
  end.

Definition args_ipfsOrigin (ev : event) : option Z :=
  match ev with
  | TagDelegated _ o _ => Some o
  | _ => None
  end.

Definition args_ipfsNew (ev : event) : option Z :=
  match ev with
  | TagDelegated _ _ n => Some n
  | _ => None
  end.

(** The command line: [--mode], [--offset], [--scan-to] ([None] is the
    default [Infinity]) and [--fail-fast]. *)
Record options : Type := {
  mode : string;
  offset : Z;
  scan_to : option Z;
  fail_fast : bool
}.

(** [blockFilter] *)
Record blockFilter : Type := {
  fromBlock : Z;
  toBlock : option Z
}.

(** A line of [console.log]: the banner, the block range, or the report
    of a finished pull (hash, block, and the error or the result). *)
Inductive line : Type :=
| Banner (mode : string)
| BlockRange (from : Z)
| PullReport (ipfsHash : string) (block : Z) (outcome : string + string).

(** The process: the pulls handed to [redundant] so far, those whose
    callback has not run yet (with the event each closure holds), the
    console, and the exception that ended the process, if any. *)
Record state : Type := {
  pulls : list string;
  pending : list (string * event);
  output : list line;
  uncaught : option string
}.

(** What the event loop runs next: the callback of the subscription, with
    an error or an event, or the callback of the [i]-th pending pull, with
    an error or a result. *)
Inductive tick : Type :=
| Deliver (error : option string) (ev : event)
| PullDone (i : nat) (error : option string) (done : string).

Section Script.

(** [FileForceEth.bnToMultihash58], of the ledger library. *)
Variable bnToMultihash58 : option Z -> string.

(** The number of the last block when the script starts. *)
Variable lastBlock : Z.

Variable opts : options.

(** [pull(hashBn, event)]: the call of [redundant.pull]; its callback is
    kept in [pending]. *)
Definition pull (hashBn : option Z) (ev : event) (st : state) : state :=
  let ipfsHash := bnToMultihash58 hashBn in
  {| pulls := pulls st ++ [ipfsHash];
     pending := pending st ++ [(ipfsHash, ev)];
     output := output st;
     uncaught := uncaught st |}.

(** The callback [pull] passes to [redundant.pull]. *)
Definition pull_callback (ipfsHash : string) (ev : event)
           (error : option string) (done : string) (st : state) : state :=
  let st :=
    {| pulls := pulls st;
       pending := pending st;
       output := output st
                 ++ [PullReport ipfsHash (blockNumber ev)
                       (match error with
                        | Some e => inl e
                        | None => inr done
                        end)];
       uncaught := uncaught st |} in
  match error with
  | Some e =>
      if fail_fast opts
      then {| pulls := pulls st; pending := pending st;
              output := output st; uncaught := Some e |}
      else st
  | None => st
  end.

Record mode_entry : Type := {
  me_event : eventType;
  handler : event -> state -> state
}.

Definition modeToEvent (m : string) : option mode_entry :=
  if String.eqb m "file" then
    Some {| me_event := NewFileAppeared;
            handler := fun ev => pull (args_ipfs ev) ev |}
  else if String.eqb m "ectag" then
    Some {| me_event := EcTagRegistered;
            handler := fun ev => pull (args_ipfs ev) ev |}
  else if String.eqb m "ecdtag" then
    Some {| me_event := EcTagDelegated;
            handler := fun ev st =>
                         pull (args_ipfsNew ev) ev
                              (pull (args_ipfsOrigin ev) ev st) |}
  else None.

Definition theBlockFilter : blockFilter :=
  {| fromBlock := (lastBlock - offset opts)%Z;
     toBlock := scan_to opts |}.

(** The script up to [startHarvesting(mode.event)]: an unknown mode makes
    [mode] undefined and the read of [mode.event] ends the process. *)
Definition start : state :=
  {| pulls := [];
     pending := [];
     output := [Banner (mode opts); BlockRange (fromBlock theBlockFilter)];
     uncaught := match modeToEvent (mode opts) with
                 | Some _ => None
                 | None => Some "TypeError: Cannot read property 'event' of undefined"%string
                 end |}.

Fixpoint remove_nth {A : Type} (i : nat) (l : list A) : list A :=
  match l, i with
  | [], _ => []
  | _ :: rest, O => rest
  | x :: rest, S j => x :: remove_nth j rest
  end.

(** One callback.  A process ended by an uncaught exception runs
    nothing. *)
Definition step (st : state) (t : tick) : state :=
  match uncaught st with
  | Some _ => st
  | None =>
      match t with
      | Deliver error ev =>
          (* (error, event) => { if (!error) { mode.handler(event) } } *)
          match error with
          | Some _ => st
          | None =>
              match modeToEvent (mode opts) with
              | Some m => handler m ev st
              | None => st
              end
          end
      | PullDone i error done =>
          match nth_error (pending st) i with
          | None => st
          | Some (ipfsHash, ev) =>
              pull_callback ipfsHash ev error done
                {| pulls := pulls st;
                   pending := remove_nth i (pending st);
                   output := output st;
                   uncaught := uncaught st |}
          end
      end
  end.

Definition run (ticks : list tick) : state := fold_left step ticks start.

End Script.

End Harvester.

(** A process that has ended runs no callback. *)
Lemma step_ended (bn58 : option Z -> string) (opts : Harvester.options)
      (st : Harvester.state) (t : Harvester.tick) (e : string) :
  Harvester.uncaught st = Some e -> Harvester.step bn58 opts st t = st.
Proof. intros H. unfold Harvester.step. now rewrite H. Qed.

Lemma fold_step_ended (bn58 : option Z -> string) (opts : Harvester.options)
      (ticks : list Harvester.tick) :
  forall (st : Harvester.state) (e : string),
    Harvester.uncaught st = Some e ->
    fold_left (Harvester.step bn58 opts) ticks st = st.
Proof.
  induction ticks as [|t rest IH]; intros st e H; [reflexivity|].
  cbn [fold_left]. rewrite (@step_ended bn58 opts st t e H). now apply (IH st e).
Qed.

(** C7 (as amended).  When the callback of a pending pull runs with an
    error, the error is written to the console with the hash and the
    block; without fail-fast the process goes on, with fail-fast the
    error is thrown, which ends the process: no later callback changes
    anything.  An error the subscription delivers is dropped in either
    mode: nothing is written and nothing ends. *)
Theorem pull_error_reported
        (bn58 : option Z -> string) (opts : Harvester.options)
        (st : Harvester.state) (i : nat) (ipfsHash : string)
        (ev : Harvester.event) (e done : string) :
  Harvester.uncaught st = None ->
  nth_error (Harvester.pending st) i = Some (ipfsHash, ev) ->
  let st' := Harvester.step bn58 opts st (Harvester.PullDone i (Some e) done) in
  Harvester.output st'
  = Harvester.output st
    ++ [Harvester.PullReport ipfsHash (Harvester.blockNumber ev) (inl e)]
  /\ (if Harvester.fail_fast opts
      then Harvester.uncaught st' = Some e
           /\ forall ticks, fold_left (Harvester.step bn58 opts) ticks st' = st'
      else Harvester.uncaught st' = None)
  /\ (forall e' ev',
         Harvester.step bn58 opts st (Harvester.Deliver (Some e') ev') = st).
Proof.
  intros Hrun Hp. cbv zeta.
  assert (forall e' ev',
             Harvester.step bn58 opts st (Harvester.Deliver (Some e') ev') = st)
    as Hdrop by (intros e' ev'; unfold Harvester.step; now rewrite Hrun).
  remember (Harvester.step bn58 opts st (Harvester.PullDone i (Some e) done))
    as st' eqn:Est.
  unfold Harvester.step in Est. rewrite Hrun, Hp in Est.
  unfold Harvester.pull_callback in Est.
  destruct (Harvester.fail_fast opts); subst st';
    cbn [Harvester.output Harvester.uncaught].
  - repeat split; try assumption.
    intros ticks. now apply (@fold_step_ended bn58 opts ticks _ e).
  - repeat split; assumption.
Qed.

(** C8.  When the subscription is the one for delegation events and the
    process is running, an event delivered without error makes the
    harvester call [redundant.pull] twice, on the hash of the origin
    identifier and on the hash of the new identifier, before anything
    else runs. *)
Theorem delegation_pulls_both
        (bn58 : option Z -> string) (opts : Harvester.options)
        (entry : Harvester.mode_entry) (st : Harvester.state)
        (b origin new : Z) :
  Harvester.modeToEvent bn58 (Harvester.mode opts) = Some entry ->
  Harvester.me_event entry = Harvester.EcTagDelegated ->
  Harvester.uncaught st = None ->
  let ev := Harvester.TagDelegated b origin new in
  let st' := Harvester.step bn58 opts st (Harvester.Deliver None ev) in
  Harvester.pulls st'
  = Harvester.pulls st ++ [bn58 (Some origin); bn58 (Some new)]
  /\ Harvester.pending st'
     = Harvester.pending st
       ++ [(bn58 (Some origin), ev); (bn58 (Some new), ev)]
  /\ Harvester.uncaught st' = None.
Proof.
  intros Hm He Hrun. cbv zeta.
  unfold Harvester.step. rewrite Hrun, Hm.
  unfold Harvester.modeToEvent in Hm.
  destruct (String.eqb (Harvester.mode opts) "file");
    [injection Hm as <-; discriminate He|].
  destruct (String.eqb (Harvester.mode opts) "ectag");
    [injection Hm as <-; discriminate He|].
  destruct (String.eqb (Harvester.mode opts) "ecdtag"); [|discriminate Hm].
  injection Hm as <-.
  cbn [Harvester.handler Harvester.pull Harvester.pulls Harvester.pending
       Harvester.uncaught Harvester.args_ipfsOrigin Harvester.args_ipfsNew].
  rewrite <- !app_assoc. repeat split; assumption.
Qed.

(** A rendering of hashes to evaluate the script with. *)
Definition show_hash (h : option Z) : string :=
  match h with
  | Some z => ("Qm" ++ toString_hex (bytes_of_N 4 (Z.to_N z)))%string
  | None => "undefined"%string
  end.

Definition fail_fast_ectag : Harvester.options :=
  {| Harvester.mode := "ectag"%string; Harvester.offset := 50;
     Harvester.scan_to := None; Harvester.fail_fast := true |}.

Definition ecdtag_options : Harvester.options :=
  {| Harvester.mode := "ecdtag"%string; Harvester.offset := 50;
     Harvester.scan_to := None; Harvester.fail_fast := false |}.

Lemma pull_error_reported_witness :
  let st := Harvester.run show_hash 1000 fail_fast_ectag
              [Harvester.Deliver None (Harvester.TagRegistered 990 7)] in
  let st' := Harvester.step show_hash fail_fast_ectag st
               (Harvester.PullDone 0 (Some "unavailable"%string) EmptyString) in
  Harvester.output st'
  = Harvester.output st
    ++ [Harvester.PullReport "Qm00000007"%string
          (Harvester.blockNumber (Harvester.TagRegistered 990 7))
          (inl "unavailable"%string)]
  /\ (if Harvester.fail_fast fail_fast_ectag
      then Harvester.uncaught st' = Some "unavailable"%string
           /\ forall ticks,
               fold_left (Harvester.step show_hash fail_fast_ectag) ticks st'
               = st'
      else Harvester.uncaught st' = None)
  /\ (forall e' ev',
         Harvester.step show_hash fail_fast_ectag st
                        (Harvester.Deliver (Some e') ev') = st).
Proof.
  apply (@pull_error_reported show_hash fail_fast_ectag
           (Harvester.run show_hash 1000 fail_fast_ectag
              [Harvester.Deliver None (Harvester.TagRegistered 990 7)])
           0 "Qm00000007"%string (Harvester.TagRegistered 990 7) "unavailable"%string EmptyString);
    reflexivity.
Defined.

Lemma delegation_pulls_both_witness :
  let ev := Harvester.TagDelegated 990 7 8 in
  let st' := Harvester.step show_hash ecdtag_options
               (Harvester.start show_hash 1000 ecdtag_options)
               (Harvester.Deliver None ev) in
  Harvester.pulls st'
  = Harvester.pulls (Harvester.start show_hash 1000 ecdtag_options)
    ++ [show_hash (Some 7%Z); show_hash (Some 8%Z)]
  /\ Harvester.pending st'
     = Harvester.pending (Harvester.start show_hash 1000 ecdtag_options)
       ++ [(show_hash (Some 7%Z), ev); (show_hash (Some 8%Z), ev)]
  /\ Harvester.uncaught st' = None.
Proof.
  apply (@delegation_pulls_both show_hash ecdtag_options
           {| Harvester.me_event := Harvester.EcTagDelegated;
              Harvester.handler := fun ev st =>
                Harvester.pull show_hash (Harvester.args_ipfsNew ev) ev
                  (Harvester.pull show_hash (Harvester.args_ipfsOrigin ev) ev st) |}
           (Harvester.start show_hash 1000 ecdtag_options) 990 7 8);
    reflexivity.
Defined.

(** C7 (as stated) fails for delivery errors: with fail-fast configured,
    an error delivered by the subscription neither ends the process nor
    is reported, and the next event is handled as usual. *)
Lemma delivery_error_ignored :
  let st := Harvester.run show_hash 1000 fail_fast_ectag
              [Harvester.Deliver (Some "ledger error"%string)
                                 (Harvester.TagRegistered 990 7)] in
  Harvester.fail_fast fail_fast_ectag = true
  /\ st = Harvester.start show_hash 1000 fail_fast_ectag
  /\ Harvester.uncaught st = None
  /\ Harvester.output st = [Harvester.Banner "ectag"%string; Harvester.BlockRange 950]
  /\ Harvester.pulls
       (Harvester.step show_hash fail_fast_ectag st
          (Harvester.Deliver None (Harvester.TagRegistered 991 9)))
     = ["Qm00000009"%string].
Proof. vm_compute. repeat split. Qed.

(* ================================================================== *)
(** ** Redundant retrieval *)

Module Redundant.

(** What leaves the node: a provider query or a fetch attempt. *)
Inductive net_call : Type :=
| Providers (id : string)
| Fetch (peer : string) (id : string).

(** The node: the identifiers present locally and every external call
    made so far. *)
Record node : Type := {
  local : list string;
  net : list net_call
}.

Inductive status : Type :=
| Present
| Fetched (peer : string)
| UnavailableContent.

Definition is_local (id : string) (nd : node) : bool :=
  existsb (String.eqb id) (local nd).

Section Store.

(** The content store: the peers it names for an identifier and whether a
    fetch from a peer succeeds. *)
Variable providers : string -> list string.
Variable fetch : string -> string -> bool.

(** Modelled from the spec: the candidate loop of [Redundant.pull]
    ([lib/libredundant] is not among the sources): a fetch against each
    candidate in turn, stopping at the first success and persisting the
    result; failures of single candidates are swallowed and exhausting
    the candidates yields [UnavailableContent]. *)
Fixpoint try_peers (id : string) (peers : list string) (nd : node)
  : status * node :=
  match peers with
  | [] => (UnavailableContent, nd)
  | peer :: rest =>
      let nd := {| local := local nd; net := net nd ++ [Fetch peer id] |} in
      if fetch peer id
      then (Fetched peer, {| local := id :: local nd; net := net nd |})
      else try_peers id rest nd
  end.

(** Modelled from the spec: [Redundant.pull] ([lib/libredundant] is not
    among the sources): a no-op if the identifier is already present
    locally; otherwise the providers of the identifier are queried and
    tried one after the other. *)
Definition pull (id : string) (nd : node) : status * node :=
  if is_local id nd then (Present, nd)
  else
    try_peers id (providers id)
              {| local := local nd; net := net nd ++ [Providers id] |}.

End Store.

End Redundant.

(** cmd-ipfs: [pull: (hash) => { redundant.pull(hash, () =>
    console.log('Pulled')) }].  The state is the node and the console. *)
Module CmdIpfs.

Definition pull (providers : string -> list string)
           (fetch : string -> string -> bool)
           (hash : string) (st : Redundant.node * list string)
  : Redundant.node * list string :=
  let (r, nd) := Redundant.pull providers fetch hash (fst st) in
  (nd, snd st ++ ["Pulled"%string]).

(** A line the watch commands write: the block range, the hash of a file
    or tag, or the two hashes of a delegation. *)
Inductive watch_line : Type :=
| Watching (startBlock : Z)
| Hash (ipfs : string)
| Transfer (ipfsOrigin ipfsNew : string).

(** A watch command after it has subscribed and the event loop has run
    some callbacks: the kind of event subscribed to, the block filter and
    the console. *)
Record watch : Type := {
  subscribed : Harvester.eventType;
  watch_filter : Harvester.blockFilter;
  printed : list watch_line
}.

Section Watch.

(** [FileForceEth.bnToMultihash58], [fileForce.ethereum.lastBlock.number]
    and [EVENT_OFFSET]. *)
Variable bnToMultihash58 : option Z -> string.
Variable lastBlock : Z.
Variable EVENT_OFFSET : Z.

(** [calculateStartBlockOffset(eventFilter)], on the [fromBlock] of the
    filter; [None] is the property absent, and the number 0 is falsy. *)
Definition calculateStartBlockOffset (fromBlock : option Z) : Z :=
  match fromBlock with
  | Some b => if (b =? 0)%Z then (lastBlock - EVENT_OFFSET)%Z else b
  | None => (lastBlock - EVENT_OFFSET)%Z
  end.

(** The callback of [fwatch] and [ecwatch], run with an error or an
    event. *)
Definition print_hash (out : list watch_line)
           (d : option string * Harvester.event) : list watch_line :=
  match fst d with
  | Some _ => out
  | None => out ++ [Hash (bnToMultihash58 (Harvester.args_ipfs (snd d)))]
  end.

(** The callback of [ecdwatch]. *)
Definition print_transfer (out : list watch_line)
           (d : option string * Harvester.event) : list watch_line :=
  match fst d with
  | Some _ => out
  | None =>
      let ipfsOrigin := bnToMultihash58 (Harvester.args_ipfsOrigin (snd d)) in
      let ipfsNew := bnToMultihash58 (Harvester.args_ipfsNew (snd d)) in
      out ++ [Transfer ipfsOrigin ipfsNew]
  end.

(** The watch commands, followed by the callbacks the subscription runs,
    in order. *)
Definition fwatch (fromBlock : option Z)
           (deliveries : list (option string * Harvester.event)) : watch :=
  let startBlock := calculateStartBlockOffset fromBlock in
  {| subscribed := Harvester.NewFileAppeared;
     watch_filter := {| Harvester.fromBlock := startBlock;
                        Harvester.toBlock := None |};
     printed := fold_left print_hash deliveries [Watching startBlock] |}.

Definition ecwatch (fromBlock : option Z)
           (deliveries : list (option string * Harvester.event)) : watch :=
  let startBlock := calculateStartBlockOffset fromBlock in
  {| subscribed := Harvester.EcTagRegistered;
     watch_filter := {| Harvester.fromBlock := startBlock;
                        Harvester.toBlock := None |};
     printed := fold_left print_hash deliveries [Watching startBlock] |}.

Definition ecdwatch (fromBlock : option Z)
           (deliveries : list (option string * Harvester.event)) : watch :=
  let startBlock := calculateStartBlockOffset fromBlock in
  {| subscribed := Harvester.EcTagDelegated;
     watch_filter := {| Harvester.fromBlock := startBlock;
                        Harvester.toBlock := None |};
     printed := fold_left print_transfer deliveries [Watching startBlock] |}.

End Watch.

End CmdIpfs.

Lemma try_peers_success
      (fetch : string -> string -> bool) (id : string) (peers : list string) :
  forall (nd nd' : Redundant.node) (r : Redundant.status),
    Redundant.try_peers fetch id peers nd = (r, nd') ->
    r <> Redundant.UnavailableContent ->
    Redundant.is_local id nd' = true.
Proof.
  induction peers as [|peer rest IH]; intros nd nd' r H Hr; cbn [Redundant.try_peers] in H.
  - injection H as <- _. congruence.
  - destruct (fetch peer id).
    + injection H as _ <-. unfold Redundant.is_local.
      cbn [Redundant.local existsb]. now rewrite String.eqb_refl.
    + now apply (IH _ _ _ H).
Qed.

(** C9.  Once a pull of an identifier has succeeded, the identifier is
    present locally, and a second pull of it returns at once: the node is
    unchanged, so the second call makes no provider query and no fetch
    attempt; the same holds for the command that wraps it. *)
Theorem pull_idempotent
        (providers : string -> list string) (fetch : string -> string -> bool)
        (id : string) (nd nd1 : Redundant.node) (r : Redundant.status)
        (out : list string) :
  Redundant.pull providers fetch id nd = (r, nd1) ->
  r <> Redundant.UnavailableContent ->
  Redundant.is_local id nd1 = true
  /\ Redundant.pull providers fetch id nd1 = (Redundant.Present, nd1)
  /\ Redundant.net (snd (Redundant.pull providers fetch id nd1))
     = Redundant.net nd1
  /\ fst (CmdIpfs.pull providers fetch id (nd1, out)) = nd1.
Proof.
  intros H Hr.
  assert (Redundant.is_local id nd1 = true) as Hl.
  { unfold Redundant.pull in H.
    destruct (Redundant.is_local id nd) eqn:E.
    - injection H as _ <-. exact E.
    - now apply (@try_peers_success fetch id _ _ _ _ H). }
  unfold CmdIpfs.pull, Redundant.pull. cbn [fst snd]. rewrite Hl.
  repeat split.
Qed.

Definition one_provider (id : string) : list string :=
  ["peerA"; "peerB"]%string.

Definition only_peerB (peer id : string) : bool := String.eqb peer "peerB".

Definition empty_node : Redundant.node :=
  {| Redundant.local := []; Redundant.net := [] |}.

Definition node_after_pull : Redundant.node :=
  {| Redundant.local := ["QmX"%string];
     Redundant.net := [Redundant.Providers "QmX";
                       Redundant.Fetch "peerA" "QmX";
                       Redundant.Fetch "peerB" "QmX"] |}.

Lemma pull_idempotent_witness :
  Redundant.is_local "QmX" node_after_pull = true
  /\ Redundant.pull one_provider only_peerB "QmX" node_after_pull
     = (Redundant.Present, node_after_pull)
  /\ Redundant.net
       (snd (Redundant.pull one_provider only_peerB "QmX" node_after_pull))
     = Redundant.net node_after_pull
  /\ fst (CmdIpfs.pull one_provider only_peerB "QmX" (node_after_pull, []))
     = node_after_pull.
Proof.
  apply (@pull_idempotent one_provider only_peerB "QmX"%string empty_node
                          node_after_pull (Redundant.Fetched "peerB") []).
  - reflexivity.
  - discriminate.
Defined.

(* ================================================================== *)
(** ** Further properties of the symmetric cipher *)

Lemma hex_digit_is_hex (x : byte) :
  hex_value (hex_digit (Byte.to_N x / 16)) <> None
  /\ hex_value (hex_digit (Byte.to_N x mod 16)) <> None
  /\ utf8_char (hex_digit (Byte.to_N x / 16))
     = [byte_of_N (N_of_ascii (hex_digit (Byte.to_N x / 16)))]
  /\ utf8_char (hex_digit (Byte.to_N x mod 16))
     = [byte_of_N (N_of_ascii (hex_digit (Byte.to_N x mod 16)))].
Proof. destruct x; vm_compute; repeat split; discriminate. Qed.

Lemma toString_hex_all_hex (b : Buffer) :
  forallb (fun c => match hex_value c with Some _ => true | None => false end)
          (list_ascii_of_string (toString_hex b)) = true.
Proof.
  induction b as [|x rest IH]; [reflexivity|].
  cbn [toString_hex list_ascii_of_string forallb].
  destruct (hex_digit_is_hex x) as (H1 & H2 & _).
  destruct (hex_value (hex_digit (to_N x / 16))); [|congruence].
  destruct (hex_value (hex_digit (to_N x mod 16))); [|congruence].
  exact IH.
Qed.

Lemma utf8_encode_hex_length (b : Buffer) :
  List.length (utf8_encode (toString_hex b)) = 2 * List.length b.
Proof.
  unfold utf8_encode.
  induction b as [|x rest IH]; [reflexivity|].
  cbn [toString_hex list_ascii_of_string flat_map].
  destruct (hex_digit_is_hex x) as (_ & _ & U1 & U2).
  rewrite U1, U2. cbn [app List.length]. rewrite IH. cbn [List.length]. lia.
Qed.

Lemma isHexadecimal_hex (b : Buffer) :
  b <> [] -> validator.isHexadecimal (toString_hex b) = true.
Proof.
  intros Hb. unfold validator.isHexadecimal.
  rewrite toString_hex_all_hex, andb_true_r.
  destruct b; [congruence|reflexivity].
Qed.

(** Whatever [str2buf] returns is a buffer. *)
Lemma str2buf_returns_buffer (str enc v : jsval) :
  str2buf str enc = Normal v -> exists b, v = JBuffer b.
Proof.
  destruct str as [| |s|b]; cbn [str2buf isString]; try discriminate.
  - destruct (truthy enc).
    + destruct (Buffer_from s enc); [|discriminate].
      intros H. injection H as <-. eauto.
    + destruct (validator.isHexadecimal s);
        [|destruct (validator.isBase64 s)];
        intros H; injection H as <-; eauto.
  - intros H. injection H as <-. eauto.
Qed.

(** X1.  [str2buf] inverts [toString('hex')]: the hexadecimal text of a
    buffer is read back as that buffer, with the encoding named and also
    when it is left to be guessed; and [str2buf] never hands back a
    string. *)
Theorem str2buf_inverts_hex (b : Buffer) :
  str2buf (JString (toString_hex b)) (JString "hex") = Normal (JBuffer b)
  /\ str2buf (JString (toString_hex b)) JUndefined = Normal (JBuffer b)
  /\ (forall str enc s, str2buf str enc <> Normal (JString s)).
Proof.
  split; [|split].
  - cbn [str2buf isString truthy String.eqb Ascii.eqb Bool.eqb negb].
    change (Buffer_from (toString_hex b) (JString "hex"))
      with (Normal (hex_decode (toString_hex b))).
    now rewrite hex_decode_toString_hex.
  - destruct b as [|x rest]; [reflexivity|].
    cbn [str2buf isString truthy].
    rewrite isHexadecimal_hex by discriminate.
    now rewrite hex_decode_toString_hex.
  - intros str enc s H. apply str2buf_returns_buffer in H as [b' Hb].
    discriminate.
Qed.

(** X2.  With the iv given as a 16-byte buffer, [encrypt] reads no
    entropy and changes nothing in the process: the envelope is a function
    of plaintext, key and iv, it carries the iv in hexadecimal, and
    [decrypt] with the envelope's algorithm and iv returns the plaintext
    bytes. *)
Theorem encrypt_explicit_iv
        (data : jsval) (P K ivb : Buffer) (o : cipher_options) (w : world) :
  str2buf data JUndefined = Normal (JBuffer P) ->
  List.length K = 32 -> List.length ivb = 16 ->
  truthy (algorithm o) = false -> iv o = JBuffer ivb ->
  let env := {| env_algorithm := JString "aes-256-ctr";
                env_iv := toString_hex ivb;
                cipherText := crypto.ctr_from K ivb 0 P |} in
  LibCrypto.encrypt data K (Some o) w = (Normal (Some env), w)
  /\ forall w2,
       LibCrypto.decrypt (JBuffer (cipherText env)) K (Some (options_of env)) w2
       = (Normal (Some P), w2).
Proof.
  intros HP HK HI Ha Hi. cbv zeta. split.
  - unfold LibCrypto.encrypt, LibCrypto.createCipher, crypto.createCipheriv.
    js_step. rewrite HP, Hi, (@js_or_falsy _ _ Ha). cbn [truthy]. js_step.
    rewrite newCipheriv_aes256ctr, HK, HI. reflexivity.
  - intros w2. unfold options_of. cbn [env_algorithm env_iv cipherText].
    rewrite decrypt_aes256ctr by assumption.
    now rewrite ctr_from_involutive.
Qed.

Definition iv0 : Buffer := hex_decode "000102030405060708090a0b0c0d0e0f".

Definition buffer_iv_options : cipher_options :=
  {| algorithm := JUndefined; iv := JBuffer iv0; cipherEncoding := JUndefined |}.

Lemma encrypt_explicit_iv_witness :
  let env := {| env_algorithm := JString "aes-256-ctr";
                env_iv := toString_hex iv0;
                cipherText := crypto.ctr_from key0 iv0 0 (utf8_encode "hello") |} in
  LibCrypto.encrypt (JString "hello") key0 (Some buffer_iv_options) world0
  = (Normal (Some env), world0)
  /\ forall w2,
       LibCrypto.decrypt (JBuffer (cipherText env)) key0 (Some (options_of env)) w2
       = (Normal (Some (utf8_encode "hello")), w2).
Proof.
  apply (@encrypt_explicit_iv (JString "hello") (utf8_encode "hello") key0 iv0
                              buffer_iv_options world0); reflexivity.
Defined.

Lemma hex_decode_length (s : string) :
  2 * List.length (hex_decode s) <= String.length s.
Proof.
  assert (forall n s, String.length s <= n ->
                      2 * List.length (hex_decode s) <= String.length s) as H.
  { induction n as [|n IH]; intros t Ht.
    - destruct t; [cbn; lia | cbn in Ht; lia].
    - destruct t as [|c1 [|c2 rest]]; cbn [hex_decode]; try (cbn; lia).
      destruct (hex_value c1), (hex_value c2);
        cbn [List.length String.length]; try lia.
      cbn [String.length] in Ht.
      specialize (IH rest ltac:(lia)). lia. }
  now apply (H (String.length s)).
Qed.

Lemma utf8_encode_length (s : string) :
  String.length s <= List.length (utf8_encode s).
Proof.
  unfold utf8_encode.
  induction s as [|c rest IH]; [cbn; lia|].
  cbn [list_ascii_of_string flat_map String.length].
  rewrite length_app. unfold utf8_char at 1.
  destruct (N_of_ascii c <? 128)%N; cbn [List.length]; lia.
Qed.

(** X3.  An iv given to [encrypt] as a string is used as its UTF-8 bytes
    but copied into the envelope as it is, while [decrypt] reads the
    envelope's iv as hexadecimal: no envelope made that way can be opened.
    [decrypt] returns [null] for it, whatever the key and the data. *)
Theorem encrypt_string_iv_unreadable
        (data : jsval) (K : Buffer) (o : cipher_options) (s : string)
        (w w' : world) (env : CipherEnvelope) :
  truthy (algorithm o) = false -> iv o = JString s -> s <> EmptyString ->
  LibCrypto.encrypt data K (Some o) w = (Normal (Some env), w') ->
  env_algorithm env = JString "aes-256-ctr"
  /\ env_iv env = s
  /\ forall (C : jsval) (K2 : Buffer) (w2 : world),
       exists e,
         LibCrypto.decrypt C K2 (Some (options_of env)) w2
         = (Normal None, logged (LogError e) w2).
Proof.
  intros Ha Hi Hs H.
  unfold LibCrypto.encrypt, LibCrypto.createCipher, crypto.createCipheriv in H.
  js_step_in H. rewrite Hi, (@js_or_falsy _ _ Ha) in H.
  destruct (str2buf data JUndefined) as [bufferData|e]; [|discriminate].
  assert (truthy (JString s) = true) as Ts
    by (destruct s; [congruence|reflexivity]).
  rewrite Ts in H.
  js_step_in H.
  change (crypto.newCipheriv (JString "aes-256-ctr") K (JString s) w)
    with (if negb (List.length (utf8_encode s) =? 16)
          then (Throw (Error "Invalid IV length"), w)
          else if negb (List.length K =? 32)
               then (Throw (Error "Invalid key length"), w)
               else (Normal {| crypto.impl := crypto.aes_ctr 32;
                               crypto.ckey := K;
                               crypto.civ := utf8_encode s |}, w)) in H.
  destruct (List.length (utf8_encode s) =? 16) eqn:EI; cbn [negb] in H;
    [|discriminate].
  destruct (negb (List.length K =? 32)); [discriminate|].
  unfold crypto.cipher_update_final in H. js_step_in H.
  destruct (crypto.toBuf bufferData) as [d|e]; [|discriminate].
  cbv beta iota zeta delta [toString encipher crypto.aes_ctr crypto.impl] in H.
  apply (f_equal (fun r => match fst r with
                           | Normal (Some e) => e
                           | _ => env
                           end)) in H.
  cbv beta iota delta [fst] in H. subst env. unfold env_algorithm, env_iv.
  split; [reflexivity|]. split; [reflexivity|].
  intros C K2 w2.
  unfold LibCrypto.decrypt, crypto.createDecipheriv, options_of. js_step.
  cbn [algorithm iv cipherEncoding env_algorithm env_iv].
  rewrite Ts. cbn [js_or truthy negb String.eqb Ascii.eqb Bool.eqb].
  destruct (str2buf C (JString "base64")) as [binData|e];
    [|eexists; reflexivity].
  change (str2buf (JString s) (JString "hex"))
    with (Normal (A:=jsval) (JBuffer (hex_decode s))).
  js_step. rewrite newCipheriv_aes256ctr.
  assert ((List.length (hex_decode s) =? 16) = false) as ->.
  { apply Nat.eqb_neq. apply Nat.eqb_eq in EI.
    pose proof (hex_decode_length s). pose proof (utf8_encode_length s). lia. }
  cbn [negb]. eexists. reflexivity.
Qed.

Definition string_iv_options : cipher_options :=
  {| algorithm := JUndefined; iv := JString "0123456789abcdef";
     cipherEncoding := JUndefined |}.

Lemma encrypt_string_iv_unreadable_witness :
  env_algorithm
    {| env_algorithm := JString "aes-256-ctr";
       env_iv := "0123456789abcdef";
       cipherText := hex_decode "b0ac3b348c" |}
  = JString "aes-256-ctr"
  /\ env_iv
       {| env_algorithm := JString "aes-256-ctr";
          env_iv := "0123456789abcdef";
          cipherText := hex_decode "b0ac3b348c" |}
     = "0123456789abcdef"%string
  /\ forall (C : jsval) (K2 : Buffer) (w2 : world),
       exists e,
         LibCrypto.decrypt C K2
           (Some (options_of
                    {| env_algorithm := JString "aes-256-ctr";
                       env_iv := "0123456789abcdef";
                       cipherText := hex_decode "b0ac3b348c" |})) w2
         = (Normal None, logged (LogError e) w2).
Proof.
  apply (@encrypt_string_iv_unreadable (JString "hello") key0 string_iv_options
           "0123456789abcdef" world0 world0).
  - reflexivity.
  - reflexivity.
  - discriminate.
  - vm_compute. reflexivity.
Defined.

(** X4.  A key of the wrong size makes [encrypt] return [null]: the
    cipher's exception is caught and written to the console, nothing is
    thrown, and the 16 bytes of entropy drawn for the iv are spent all the
    same. *)
Theorem encrypt_wrong_key_returns_null
        (data : jsval) (P K : Buffer) (options : option cipher_options)
        (w : world) :
  str2buf data JUndefined = Normal (JBuffer P) ->
  (forall o, options = Some o ->
             truthy (algorithm o) = false /\ truthy (iv o) = false) ->
  List.length K <> 32 ->
  LibCrypto.encrypt data K options w
  = (Normal None,
     logged (LogError (Error "Invalid key length")) (crypto.advance 16 w)).
Proof.
  intros HP Hopt HK.
  set (o := match options with Some o => o | None => no_options end).
  assert (truthy (algorithm o) = false /\ truthy (iv o) = false) as [Ha Hi].
  { subst o. destruct options as [o|]; [now apply Hopt | split; reflexivity]. }
  unfold LibCrypto.encrypt. fold o. js_step.
  rewrite HP, (@createCipher_default K o w Ha Hi).
  apply Nat.eqb_neq in HK. rewrite HK. reflexivity.
Qed.

Lemma encrypt_wrong_key_returns_null_witness :
  LibCrypto.encrypt (JString "hello") short_key None world0
  = (Normal None,
     logged (LogError (Error "Invalid key length")) (crypto.advance 16 world0)).
Proof.
  apply (@encrypt_wrong_key_returns_null (JString "hello") (utf8_encode "hello")
                                         short_key None world0).
  - reflexivity.
  - intros o Ho. discriminate Ho.
  - vm_compute. discriminate.
Defined.

(** X5.  [createDecipher] passes the iv to the cipher as it is given.  The
    hexadecimal string that [encrypt] and [encryptStream] report is taken
    as 32 characters, hence 32 bytes, and refused; the iv as a buffer is
    accepted, and the decipher then undoes what the cipher of
    [createCipher] did with the same key and iv. *)
Theorem createDecipher_iv_as_given
        (K ivb P : Buffer) (w : world) :
  List.length K = 32 -> List.length ivb = 16 ->
  LibCrypto.createDecipher K
    (Some {| algorithm := JUndefined; iv := JString (toString_hex ivb);
             cipherEncoding := JUndefined |}) w
  = (Throw (Error "Invalid IV length"), w)
  /\ exists enc dec,
       LibCrypto.createCipher K
         (Some {| algorithm := JUndefined; iv := JBuffer ivb;
                  cipherEncoding := JUndefined |}) w
       = (Normal enc, w)
       /\ LibCrypto.createDecipher K
            (Some {| algorithm := JUndefined; iv := JBuffer ivb;
                     cipherEncoding := JUndefined |}) w
          = (Normal dec, w)
       /\ exists C,
            crypto.cipher_update_final (cp_cipher enc) (JBuffer P) w
            = (Normal C, w)
            /\ crypto.decipher_update_final (cp_cipher dec) (JBuffer C) w
               = (Normal P, w).
Proof.
  intros HK HI. split.
  - unfold LibCrypto.createDecipher, crypto.createDecipheriv. js_step.
    cbn [algorithm iv].
    rewrite truthy_hex by (intros ->; discriminate).
    cbn [js_or truthy]. js_step.
    change (crypto.newCipheriv (JString "aes-256-ctr") K
              (JString (toString_hex ivb)) w)
      with (if negb (List.length (utf8_encode (toString_hex ivb)) =? 16)
            then (Throw (Error "Invalid IV length"), w)
            else if negb (List.length K =? 32)
                 then (Throw (Error "Invalid key length"), w)
                 else (Normal {| crypto.impl := crypto.aes_ctr 32;
                                 crypto.ckey := K;
                                 crypto.civ := utf8_encode (toString_hex ivb) |},
                       w)).
    now rewrite utf8_encode_hex_length, HI.
  - eexists _, _. split; [|split].
    + unfold LibCrypto.createCipher, crypto.createCipheriv. js_step.
      cbn [algorithm iv js_or truthy]. js_step.
      rewrite newCipheriv_aes256ctr, HK, HI. reflexivity.
    + unfold LibCrypto.createDecipher, crypto.createDecipheriv. js_step.
      cbn [algorithm iv js_or truthy]. js_step.
      rewrite newCipheriv_aes256ctr, HK, HI. reflexivity.
    + eexists. split; [reflexivity|].
      unfold crypto.decipher_update_final. js_step.
      cbn [crypto.toBuf cp_cipher crypto.impl crypto.ckey crypto.civ
           decipher crypto.aes_ctr].
      now rewrite ctr_from_involutive.
Qed.

Lemma createDecipher_iv_as_given_witness :
  LibCrypto.createDecipher key0
    (Some {| algorithm := JUndefined; iv := JString (toString_hex iv0);
             cipherEncoding := JUndefined |}) world0
  = (Throw (Error "Invalid IV length"), world0)
  /\ exists enc dec,
       LibCrypto.createCipher key0
         (Some {| algorithm := JUndefined; iv := JBuffer iv0;
                  cipherEncoding := JUndefined |}) world0
       = (Normal enc, world0)
       /\ LibCrypto.createDecipher key0
            (Some {| algorithm := JUndefined; iv := JBuffer iv0;
                     cipherEncoding := JUndefined |}) world0
          = (Normal dec, world0)
       /\ exists C,
            crypto.cipher_update_final (cp_cipher enc)
              (JBuffer (utf8_encode "hello")) world0
            = (Normal C, world0)
            /\ crypto.decipher_update_final (cp_cipher dec) (JBuffer C) world0
               = (Normal (utf8_encode "hello"), world0).
Proof.
  apply (@createDecipher_iv_as_given key0 iv0 (utf8_encode "hello") world0);
    reflexivity.
Defined.

(* ================================================================== *)
(** ** Further properties of key generation and strengthening *)

Lemma Buffer_concat_length (l : list Buffer) (total : nat) :
  List.length (HKDF.Buffer_concat l total) = total.
Proof.
  unfold HKDF.Buffer_concat. rewrite length_firstn, length_app, repeat_length.
  lia.
Qed.

Lemma derive_length (h : HKDF.t) (info : jsval) (size : nat) (k : Buffer) :
  HKDF.derive h info size = Normal k -> List.length k = size.
Proof.
  unfold HKDF.derive. destruct (crypto.toBuf info); [|discriminate].
  intros H. injection H as <-. apply Buffer_concat_length.
Qed.

(** X6.  [randomKey] returns a key of exactly the size asked for, 32
    bytes when the size is left out, whatever the entropy and the host;
    it draws the size twice from the entropy, once for the input key
    material and once for the salt, and throws nothing. *)
Theorem randomKey_size (size : option nat) (w : world) :
  exists k,
    LibCrypto.randomKey size w
    = (Normal k,
       crypto.advance (match size with Some n => n | None => 32 end)
         (crypto.advance (match size with Some n => n | None => 32 end) w))
    /\ List.length k = match size with Some n => n | None => 32 end.
Proof.
  unfold LibCrypto.randomKey, crypto.randomBytes, HKDF.new, Hmac.createHash.
  set (n := match size with Some n => n | None => 32 end).
  js_step.
  change (Hmac.getDigest "sha256" (crypto.advance n (crypto.advance n w)))
    with (Some SHA256.impl).
  cbn [truthy crypto.toBuf].
  destruct (HKDF.derive _ (JString "ethereum-simm") n) as [k|e] eqn:E.
  - exists k. split; [reflexivity|]. now apply derive_length in E.
  - discriminate E.
Qed.

(** The size [deriveSecretKey] works with: [options.size || 32]. *)
Definition effective_size (options : option kdf_options) : nat :=
  match options with
  | Some o => match opt_size o with Some (S n) => S n | _ => 32 end
  | None => 32
  end.

(** The [hkdf] record of a derived key, passed back as the [options] of
    [deriveSecretKey].  The record spells its first field [hashAgl], the
    options are read at [hashAlg]: that option is absent. *)
Definition options_of_hkdf (h : hkdf_params) : kdf_options :=
  {| opt_hashAlg := JUndefined;
     opt_info := hp_info h;
     opt_size := Some (hp_size h);
     opt_salt := JString (hp_salt h) |}.

Lemma js_or_idem (a d : jsval) :
  truthy d = true -> js_or (js_or a d) d = js_or a d.
Proof.
  intros Hd. unfold js_or. destruct (truthy a) eqn:E; [now rewrite E|].
  now rewrite Hd.
Qed.

(** What a returned result of [deriveSecretKey] is made of: the digest
    named by the options, the salt given or drawn, and the output of the
    derivation. *)
Lemma deriveSecretKey_inv
      (secret : Buffer) (options : option kdf_options) (w w' : world)
      (sk : secret_key) :
  LibCrypto.deriveSecretKey secret options w = (Normal sk, w') ->
  exists (o : kdf_options) (name : string) (d : digest_impl) (b k : Buffer),
    o = match options with Some o => o | None => no_kdf_options end
    /\ js_or (opt_hashAlg o) (JString "sha256") = JString name
    /\ Hmac.getDigest name w' = Some d
    /\ (if truthy (opt_salt o)
        then str2buf (opt_salt o) (JString "hex") = Normal (JBuffer b) /\ w' = w
        else b = crypto.draw 32 w /\ w' = crypto.advance 32 w)
    /\ HKDF.derive {| HKDF.hash := d;
                      HKDF.hashLength := List.length (digest d []);
                      HKDF.prk := Hmac.hmac d b secret |}
                   (js_or (opt_info o) (JString "file-force"))
                   (effective_size options)
       = Normal k
    /\ sk = {| sk_key := k;
               sk_hkdf := {| hashAgl := JString name;
                             hp_salt := toString_hex b;
                             hp_info := js_or (opt_info o) (JString "file-force");
                             hp_size := effective_size options |} |}.
Proof.
  unfold LibCrypto.deriveSecretKey, HKDF.new, Hmac.createHash, effective_size.
  set (o := match options with Some o => o | None => no_kdf_options end).
  assert (match options with
          | Some o => match opt_size o with Some (S n) => S n | _ => 32 end
          | None => 32
          end = match opt_size o with Some (S n) => S n | _ => 32 end) as ->
    by (subst o; destruct options; reflexivity).
  set (size := match opt_size o with Some (S n) => S n | _ => 32 end).
  js_step. intros H. exists o.
  destruct (truthy (opt_salt o)) eqn:Es; js_step_in H.
  - destruct (str2buf (opt_salt o) (JString "hex")) as [salt|e] eqn:Esalt;
      [|discriminate].
    destruct (@str2buf_returns_buffer _ _ _ Esalt) as [b ->].
    destruct (js_or (opt_hashAlg o) (JString "sha256")) as [| |name|b'];
      try discriminate.
    destruct (Hmac.getDigest name w) as [d|] eqn:Ed; [|discriminate].
    js_step_in H. cbn [truthy crypto.toBuf toString] in H.
    destruct (HKDF.derive _ _ _) as [k|] eqn:Ek; [|discriminate].
    pose proof (f_equal snd H) as Hw. cbn [snd] in Hw. subst w'.
    apply (f_equal (fun r => match fst r with Normal s => s | _ => sk end)) in H.
    cbv beta iota delta [fst] in H. subst sk.
    exists name, d, b, k. repeat split; assumption.
  - unfold crypto.randomBytes in H. js_step_in H.
    cbn [str2buf isString] in H.
    destruct (js_or (opt_hashAlg o) (JString "sha256")) as [| |name|b'];
      try discriminate.
    destruct (Hmac.getDigest name (crypto.advance 32 w)) as [d|] eqn:Ed;
      [|discriminate].
    js_step_in H. cbn [truthy crypto.toBuf toString] in H.
    destruct (HKDF.derive _ _ _) as [k|] eqn:Ek; [|discriminate].
    pose proof (f_equal snd H) as Hw. cbn [snd] in Hw. subst w'.
    apply (f_equal (fun r => match fst r with Normal s => s | _ => sk end)) in H.
    cbv beta iota delta [fst] in H. subst sk.
    exists name, d, (crypto.draw 32 w), k. repeat split; assumption.
Qed.

(** [deriveSecretKey] given an [hkdf] record as its options: the salt is
    read back from its hexadecimal form and the digest is the default
    one. *)
Lemma deriveSecretKey_from_record
      (secret b k : Buffer) (h info : jsval) (size : nat) (w : world) :
  b <> [] -> truthy info = true -> size <> 0 ->
  HKDF.derive {| HKDF.hash := SHA256.impl;
                 HKDF.hashLength := List.length (digest SHA256.impl []);
                 HKDF.prk := Hmac.hmac SHA256.impl b secret |} info size
  = Normal k ->
  LibCrypto.deriveSecretKey secret
    (Some (options_of_hkdf {| hashAgl := h; hp_salt := toString_hex b;
                              hp_info := info; hp_size := size |})) w
  = (Normal {| sk_key := k;
               sk_hkdf := {| hashAgl := JString "sha256";
                             hp_salt := toString_hex b;
                             hp_info := info; hp_size := size |} |}, w).
Proof.
  intros Hb Hi Hs Hk.
  unfold LibCrypto.deriveSecretKey, HKDF.new, Hmac.createHash. js_step.
  cbn [options_of_hkdf opt_hashAlg opt_info opt_size opt_salt
       hp_info hp_size hp_salt].
  rewrite (@truthy_hex b Hb). js_step.
  change (str2buf (JString (toString_hex b)) (JString "hex"))
    with (Normal (A:=jsval) (JBuffer (hex_decode (toString_hex b)))).
  rewrite hex_decode_toString_hex.
  change (js_or JUndefined (JString "sha256")) with (JString "sha256").
  js_step.
  change (Hmac.getDigest "sha256" w) with (Some SHA256.impl).
  js_step. cbn [truthy crypto.toBuf toString].
  assert (js_or info (JString "file-force") = info) as ->
    by (unfold js_or; now rewrite Hi).
  destruct size as [|n]; [congruence|].
  rewrite Hk. reflexivity.
Qed.

(** [deriveSecretKey] without options: SHA-256, a salt of 32 random
    bytes, a key of 32 bytes. *)
Lemma deriveSecretKey_default (secret : Buffer) (w : world) :
  exists k,
    LibCrypto.deriveSecretKey secret None w
    = (Normal {| sk_key := k;
                 sk_hkdf := {| hashAgl := JString "sha256";
                               hp_salt := toString_hex (crypto.draw 32 w);
                               hp_info := JString "file-force";
                               hp_size := 32 |} |},
       crypto.advance 32 w)
    /\ List.length k = 32
    /\ HKDF.derive {| HKDF.hash := SHA256.impl;
                      HKDF.hashLength := List.length (digest SHA256.impl []);
                      HKDF.prk := Hmac.hmac SHA256.impl (crypto.draw 32 w) secret |}
                   (JString "file-force") 32
       = Normal k.
Proof.
  unfold LibCrypto.deriveSecretKey, HKDF.new, Hmac.createHash,
    crypto.randomBytes.
  js_step. cbn [no_kdf_options opt_hashAlg opt_info opt_size opt_salt truthy].
  js_step. cbn [str2buf isString].
  change (js_or JUndefined (JString "sha256")) with (JString "sha256").
  change (js_or JUndefined (JString "file-force")) with (JString "file-force").
  js_step.
  change (Hmac.getDigest "sha256" (crypto.advance 32 w))
    with (Some SHA256.impl).
  js_step. cbn [truthy crypto.toBuf toString].
  destruct (HKDF.derive _ _ _) as [k|e] eqn:Ek; [|discriminate Ek].
  exists k. split; [reflexivity|]. split; [|reflexivity].
  now apply derive_length in Ek.
Qed.

(** X7.  The key [deriveSecretKey] returns has the size it records in
    [hkdf.size], which is the size asked for, or 32 when no size or the
    size 0 is asked for; the salt it records is the hexadecimal form of
    the salt it used, of 32 bytes when it was drawn at random. *)
Theorem deriveSecretKey_key_size
        (secret : Buffer) (options : option kdf_options) (w w' : world)
        (sk : secret_key) :
  LibCrypto.deriveSecretKey secret options w = (Normal sk, w') ->
  List.length (sk_key sk) = hp_size (sk_hkdf sk)
  /\ hp_size (sk_hkdf sk) = effective_size options
  /\ (truthy (opt_salt (match options with
                        | Some o => o | None => no_kdf_options end)) = false ->
      hp_salt (sk_hkdf sk) = toString_hex (crypto.draw 32 w)
      /\ String.length (hp_salt (sk_hkdf sk)) = 64
      /\ w' = crypto.advance 32 w).
Proof.
  intros H.
  apply deriveSecretKey_inv in H
    as (o & name & d & b & k & -> & _ & _ & Hsalt & Hk & ->).
  cbn [sk_key sk_hkdf hp_size hp_salt].
  split; [now apply derive_length in Hk|]. split; [reflexivity|].
  intros Hf. rewrite Hf in Hsalt. destruct Hsalt as [-> ->].
  rewrite toString_hex_length, draw_length. repeat split.
Qed.

Lemma deriveSecretKey_key_size_witness :
  exists sk w',
    LibCrypto.deriveSecretKey secret0 None world0 = (Normal sk, w')
    /\ List.length (sk_key sk) = hp_size (sk_hkdf sk)
    /\ hp_size (sk_hkdf sk) = 32
    /\ (truthy (opt_salt no_kdf_options) = false ->
        hp_salt (sk_hkdf sk) = toString_hex (crypto.draw 32 world0)
        /\ String.length (hp_salt (sk_hkdf sk)) = 64
        /\ w' = crypto.advance 32 world0).
Proof.
  eexists _, _. split; [vm_compute; reflexivity|].
  apply (@deriveSecretKey_key_size secret0 None world0).
  vm_compute. reflexivity.
Defined.

(** X8.  A key derived under the default digest is derived again from the
    same secret and the [hkdf] record that came with it, in any state of
    the process and without drawing entropy, provided the salt recorded
    is not empty.  (An empty recorded salt is falsy as an option, and a
    fresh random salt would be drawn.) *)
Theorem deriveSecretKey_rederive
        (secret : Buffer) (options : option kdf_options) (w w' w2 : world)
        (sk : secret_key) :
  truthy (opt_hashAlg (match options with
                       | Some o => o | None => no_kdf_options end)) = false ->
  LibCrypto.deriveSecretKey secret options w = (Normal sk, w') ->
  hp_salt (sk_hkdf sk) <> EmptyString ->
  LibCrypto.deriveSecretKey secret (Some (options_of_hkdf (sk_hkdf sk))) w2
  = (Normal sk, w2).
Proof.
  intros Hh H Hne.
  apply deriveSecretKey_inv in H
    as (o & name & d & b & k & -> & Hname & Hd & _ & Hk & ->).
  rewrite (@js_or_falsy _ (JString "sha256") Hh) in Hname.
  injection Hname as <-.
  change (Hmac.getDigest "sha256" w') with (Some SHA256.impl) in Hd.
  injection Hd as <-.
  cbn [sk_hkdf hp_salt] in Hne. cbn [sk_hkdf].
  apply deriveSecretKey_from_record.
  - intros ->. now apply Hne.
  - unfold js_or. destruct (truthy (opt_info _)) eqn:E; [exact E|reflexivity].
  - unfold effective_size.
    destruct options as [o|]; [destruct (opt_size o) as [[|n]|]|]; discriminate.
  - exact Hk.
Qed.

Lemma deriveSecretKey_rederive_witness :
  exists sk w',
    LibCrypto.deriveSecretKey secret0 None world0 = (Normal sk, w')
    /\ LibCrypto.deriveSecretKey secret0 (Some (options_of_hkdf (sk_hkdf sk)))
                                 world1
       = (Normal sk, world1).
Proof.
  eexists _, _. split; [vm_compute; reflexivity|].
  apply (@deriveSecretKey_rederive secret0 None world0 (crypto.advance 32 world0)
                                   world1).
  - reflexivity.
  - vm_compute. reflexivity.
  - vm_compute. discriminate.
Defined.

(* ================================================================== *)
(** ** Keys of different sizes from the same material *)

Lemma bytes_of_N_length (len : nat) : forall n, List.length (bytes_of_N len n) = len.
Proof.
  induction len as [|len IH]; intros n; cbn [bytes_of_N]; [reflexivity|].
  rewrite ?length_app, ?IH; cbn [List.length]; try rewrite IH; lia.
Qed.

Lemma round_length (st : list N) (kw : N * N) :
  List.length st = 8 -> List.length (SHA256.round st kw) = 8.
Proof.
  intros H. unfold SHA256.round.
  destruct st as [|a [|b [|c [|d [|e [|f [|g [|h [|x rest]]]]]]]]];
    try discriminate H; reflexivity.
Qed.

Lemma fold_round_length (kws : list (N * N)) :
  forall st, List.length st = 8 ->
             List.length (fold_left SHA256.round kws st) = 8.
Proof.
  induction kws as [|kw rest IH]; intros st H; [exact H|].
  cbn [fold_left]. apply IH. now apply round_length.
Qed.

Lemma compress_length (H : list N) (block : Buffer) :
  List.length H = 8 -> List.length (SHA256.compress H block) = 8.
Proof.
  intros HH. unfold SHA256.compress.
  rewrite length_map, length_combine, fold_round_length by exact HH.
  rewrite HH. reflexivity.
Qed.

Lemma fold_compress_length (blocks : list Buffer) :
  forall H, List.length H = 8 ->
            List.length (fold_left SHA256.compress blocks H) = 8.
Proof.
  induction blocks as [|b rest IH]; intros H HH; [exact HH|].
  cbn [fold_left]. apply IH. now apply compress_length.
Qed.

Lemma flat_map_bytes_length (ws : list N) :
  List.length (flat_map (bytes_of_N 4) ws) = 4 * List.length ws.
Proof.
  induction ws as [|x rest IH]; [reflexivity|].
  cbn [flat_map]. rewrite length_app, bytes_of_N_length, IH.
  cbn [List.length]. lia.
Qed.

(** A SHA-256 digest has 32 bytes. *)
Lemma sha256_length (msg : Buffer) : List.length (SHA256.hash msg) = 32.
Proof.
  unfold SHA256.hash.
  rewrite flat_map_bytes_length, fold_compress_length; reflexivity.
Qed.

Lemma digest_sha256_length (msg : Buffer) :
  List.length (digest SHA256.impl msg) = 32.
Proof. cbn [digest SHA256.impl]. apply sha256_length. Qed.

Lemma hmac_sha256_length (key msg : Buffer) :
  List.length (Hmac.hmac SHA256.impl key msg) = 32.
Proof. unfold Hmac.hmac. cbn [digest SHA256.impl]. apply sha256_length. Qed.

Lemma blocks_concat_length (prk info : Buffer) (k : nat) :
  forall i prev,
    List.length (List.concat (HKDF.blocks SHA256.impl prk info k i prev))
    = 32 * k.
Proof.
  induction k as [|k IH]; intros i prev; [reflexivity|].
  cbn [HKDF.blocks List.concat].
  rewrite length_app, hmac_sha256_length, IH. lia.
Qed.

(** The chain of output blocks is extended, never changed, when more
    blocks are asked for. *)
Lemma blocks_prefix (d : digest_impl) (prk info : Buffer) (k1 : nat) :
  forall k2 i prev,
    k1 <= k2 ->
    exists rest,
      HKDF.blocks d prk info k2 i prev
      = HKDF.blocks d prk info k1 i prev ++ rest.
Proof.
  induction k1 as [|k1 IH]; intros k2 i prev Hle.
  - eexists. reflexivity.
  - destruct k2 as [|k2]; [lia|].
    cbn [HKDF.blocks].
    destruct (IH k2 (S i)
                 (Hmac.hmac d prk (prev ++ info ++ [byte_of_N (N.of_nat (i + 1))]))
                 ltac:(lia)) as [rest ->].
    exists rest. reflexivity.
Qed.

Lemma firstn_app_le (A : Type) (n : nat) (l1 l2 : list A) :
  n <= List.length l1 -> firstn n (l1 ++ l2) = firstn n l1.
Proof.
  intros H. rewrite firstn_app.
  replace (n - List.length l1) with 0 by lia.
  cbn [firstn]. apply app_nil_r.
Qed.

Lemma derive_prefix (h : HKDF.t) (info : jsval) (n1 n2 : nat)
      (k1 k2 : Buffer) :
  HKDF.hash h = SHA256.impl -> HKDF.hashLength h = 32 ->
  n1 <= n2 ->
  HKDF.derive h info n1 = Normal k1 ->
  HKDF.derive h info n2 = Normal k2 ->
  k1 = firstn n1 k2.
Proof.
  intros Hh Hl Hle H1 H2. unfold HKDF.derive in H1, H2.
  rewrite Hh, Hl in H1, H2.
  destruct (crypto.toBuf info) as [i|]; [|discriminate].
  set (b1 := (n1 + 32 - 1) / 32) in *. set (b2 := (n2 + 32 - 1) / 32) in *.
  assert (k1 = HKDF.Buffer_concat
                 (HKDF.blocks SHA256.impl (HKDF.prk h) i b1 0 []) n1) as ->
    by congruence.
  assert (k2 = HKDF.Buffer_concat
                 (HKDF.blocks SHA256.impl (HKDF.prk h) i b2 0 []) n2) as ->
    by congruence.
  clear H1 H2.
  assert (b1 <= b2) as Hb
    by (apply Nat.Div0.div_le_mono; lia).
  assert (n1 <= 32 * b1) as Hn1.
  { subst b1. pose proof (Nat.div_mod_eq (n1 + 32 - 1) 32).
    pose proof (Nat.mod_upper_bound (n1 + 32 - 1) 32 ltac:(lia)). lia. }
  destruct (@blocks_prefix SHA256.impl (HKDF.prk h) i b1 b2 0 [] Hb)
    as [rest ->].
  unfold HKDF.Buffer_concat.
  rewrite firstn_firstn, Nat.min_l by exact Hle.
  rewrite concat_app, <- app_assoc.
  set (A := List.concat (HKDF.blocks SHA256.impl (HKDF.prk h) i b1 0 [])).
  assert (n1 <= List.length A) as HA
    by (subst A; rewrite blocks_concat_length; exact Hn1).
  rewrite (@firstn_app_le byte n1 A _ HA).
  rewrite (@firstn_app_le byte n1 A _ HA).
  reflexivity.
Qed.

(** The options with another [size]. *)
Definition with_size (o : kdf_options) (size : nat) : kdf_options :=
  {| opt_hashAlg := opt_hashAlg o; opt_info := opt_info o;
     opt_size := Some size; opt_salt := opt_salt o |}.

(** X9.  Under the default digest, keys of different sizes derived from
    the same secret, salt and info are not independent: the shorter key
    is the beginning of the longer one. *)
Theorem deriveSecretKey_size_prefix
        (secret : Buffer) (o : kdf_options) (n1 n2 : nat)
        (w w1 w2 : world) (sk1 sk2 : secret_key) :
  truthy (opt_hashAlg o) = false -> truthy (opt_salt o) = true ->
  0 < n1 -> n1 <= n2 ->
  LibCrypto.deriveSecretKey secret (Some (with_size o n1)) w = (Normal sk1, w1) ->
  LibCrypto.deriveSecretKey secret (Some (with_size o n2)) w = (Normal sk2, w2) ->
  sk_key sk1 = firstn n1 (sk_key sk2).
Proof.
  intros Hh Hs Hpos Hle H1 H2.
  apply deriveSecretKey_inv in H1
    as (o1 & name1 & d1 & b1 & k1 & -> & Hname1 & Hd1 & Hsalt1 & Hk1 & ->).
  apply deriveSecretKey_inv in H2
    as (o2 & name2 & d2 & b2 & k2 & -> & Hname2 & Hd2 & Hsalt2 & Hk2 & ->).
  cbn [with_size opt_hashAlg opt_salt opt_info] in *.
  rewrite (@js_or_falsy _ (JString "sha256") Hh) in Hname1, Hname2.
  injection Hname1 as <-. injection Hname2 as <-.
  change (Hmac.getDigest "sha256" w1) with (Some SHA256.impl) in Hd1.
  change (Hmac.getDigest "sha256" w2) with (Some SHA256.impl) in Hd2.
  injection Hd1 as <-. injection Hd2 as <-.
  rewrite Hs in Hsalt1, Hsalt2.
  destruct Hsalt1 as [Hb1 _]. destruct Hsalt2 as [Hb2 _].
  assert (b2 = b1) as -> by congruence.
  assert (effective_size (Some (with_size o n1)) = n1) as E1
    by (destruct n1; [lia|reflexivity]).
  assert (effective_size (Some (with_size o n2)) = n2) as E2
    by (destruct n2; [lia|reflexivity]).
  rewrite E1 in Hk1. rewrite E2 in Hk2. cbn [sk_key].
  refine (@derive_prefix _ _ n1 n2 k1 k2 _ _ Hle Hk1 Hk2).
  - reflexivity.
  - cbn [HKDF.hashLength]. apply digest_sha256_length.
Qed.

Definition sized_options : kdf_options :=
  {| opt_hashAlg := JUndefined; opt_info := JUndefined;
     opt_size := None; opt_salt := JString "aabb" |}.

Lemma deriveSecretKey_size_prefix_witness :
  exists sk1 sk2,
    LibCrypto.deriveSecretKey secret0 (Some (with_size sized_options 16)) world0
    = (Normal sk1, world0)
    /\ LibCrypto.deriveSecretKey secret0 (Some (with_size sized_options 40)) world0
       = (Normal sk2, world0)
    /\ sk_key sk1 = firstn 16 (sk_key sk2).
Proof.
  eexists _, _. split; [vm_compute; reflexivity|].
  split; [vm_compute; reflexivity|].
  apply (@deriveSecretKey_size_prefix secret0 sized_options 16 40
                                      world0 world0 world0).
  - reflexivity.
  - reflexivity.
  - lia.
  - lia.
  - vm_compute. reflexivity.
  - vm_compute. reflexivity.
Defined.

(* ================================================================== *)
(** ** Further properties of the elliptic-curve functions *)

Open Scope Z_scope.

Section SignaturesAndTags.

Variable c : EC.curve.
Hypothesis L : curve_laws c.

(** What the loop of [sign] returns is in range: [r] and [s] are
    non-zero residues and the recovery parameter has two bits. *)
Lemma sign_loop_range (fuel : nat) :
  forall (iter : nat) (d e : Z) (sg : EC.Signature),
    EC.sign_loop c fuel iter d e = Some sg ->
    0 < EC.sig_r sg < EC.n c
    /\ 0 < EC.sig_s sg < EC.n c
    /\ 0 <= EC.recoveryParam sg <= 3.
Proof.
  pose proof (n_gt_1 L) as Hn.
  induction fuel as [|fuel IH]; intros iter d e sg H; cbn [EC.sign_loop] in H.
  - discriminate.
  - set (k := EC.truncateToN c (EC.drbg c d e iter) true) in *.
    destruct ((k <=? 1) || (EC.n c - 1 <=? k)); [eauto|].
    destruct (EC.isInfinity c (EC.mul c k (EC.g c))); [eauto|].
    destruct (EC.getX c (EC.mul c k (EC.g c)) mod EC.n c =? 0) eqn:Er; [eauto|].
    destruct (_ =? 0) eqn:Es in H; [eauto|].
    apply Z.eqb_neq in Er, Es.
    inversion H; subst sg; clear H.
    cbn [EC.sig_r EC.sig_s EC.recoveryParam].
    pose proof (Z.mod_pos_bound (EC.getX c (EC.mul c k (EC.g c))) (EC.n c)
                                ltac:(lia)).
    pose proof (Z.mod_pos_bound
                  (invm k (EC.n c)
                   * (EC.getX c (EC.mul c k (EC.g c)) mod EC.n c * d + e))
                  (EC.n c) ltac:(lia)).
    repeat split; try lia.
    + destruct (Z.odd _), (_ =? _); cbn; lia.
    + destruct (Z.odd _), (_ =? _); cbn; lia.
Qed.

(** The scalar the verification multiplies the base point by is the
    nonce of the signature. *)
Lemma verify_scalar (m k ki r d e s si : Z) :
  1 < m -> 0 <= k < m ->
  (k * ki) mod m = 1 ->
  s = (ki * (r * d + e)) mod m ->
  (s * si) mod m = 1 ->
  ((si * e) mod m + ((si * r) mod m) * d) mod m = k.
Proof.
  intros Hm Hk Hki Hs Hsi.
  rewrite Z.add_mod_idemp_l by lia.
  rewrite <- (Z.add_mod_idemp_r _ (_ * d)) by lia.
  rewrite Z.mul_mod_idemp_l by lia.
  rewrite Z.add_mod_idemp_r by lia.
  pose proof (Z.div_mod (k * ki) m ltac:(lia)) as Hu. rewrite Hki in Hu.
  pose proof (Z.div_mod (s * si) m ltac:(lia)) as Hv. rewrite Hsi in Hv.
  pose proof (Z.div_mod (ki * (r * d + e)) m ltac:(lia)) as Hq.
  rewrite <- Hs in Hq.
  set (u := k * ki / m) in *. set (v := s * si / m) in *.
  set (q := ki * (r * d + e) / m) in *.
  replace (si * e + si * r * d)
    with (k + (k * v + si * k * q - si * u * (r * d + e)) * m).
  - rewrite Z.mod_add by lia. apply Z.mod_small; lia.
  - transitivity (k * (s * si) + si * k * q * m
                  - si * (m * u) * (r * d + e));
      [rewrite Hv; ring|].
    replace (m * u) with (k * ki - 1) by lia.
    replace (si * k * q * m) with (si * k * (m * q)) by ring.
    replace (m * q) with (ki * (r * d + e) - s) by lia.
    ring.
Qed.

(** X10.  A signature [sign] returns is accepted by [verify] under the
    public key [private2public] gives for the signing key, for every
    message; its [r] and [s] are non-zero residues modulo the group order
    and its recovery parameter is between 0 and 3. *)
Theorem sign_verify (fuel : nat) (message privateKey pub : Buffer)
        (sg : EC.Signature) :
  LibCrypto.private2public c privateKey = Normal pub ->
  LibCrypto.sign c fuel message privateKey = Some sg ->
  LibCrypto.verify c sg message pub = Normal true
  /\ 0 < EC.sig_r sg < EC.n c
  /\ 0 < EC.sig_s sg < EC.n c
  /\ 0 <= EC.recoveryParam sg <= 3.
Proof.
  intros Hpub H. pose proof (n_gt_1 L) as Hn.
  apply (@private2public_inv c L) in Hpub as (Hd & Id & ->).
  unfold LibCrypto.sign, EC.ec_sign in H.
  set (d := EC.keyFromPrivate c privateKey) in *.
  set (e := EC.truncateToN c (BN message) false) in *.
  pose proof (@sign_loop_range _ _ _ _ _ H) as (Rr & Rs & Rj).
  split; [|auto].
  apply (@sign_loop_inv c) in H as (k & Hk & Ik & (Hr & Hr0 & Hj) & Hs).
  unfold LibCrypto.verify, EC.keyFromPublic.
  pose proof (@g_valid c L) as Vg.
  assert (EC.validate c (EC.mul c d (EC.g c)) = true) as Vd
    by now apply (@mul_valid c L).
  rewrite (decode_encode L) by assumption.
  f_equal. unfold EC.ec_verify. fold e.
  assert ((EC.sig_r sg <? 1) || (EC.n c <=? EC.sig_r sg) = false) as ->.
  { apply orb_false_iff. split; [apply Z.ltb_ge|apply Z.leb_gt]; lia. }
  assert ((EC.sig_s sg <? 1) || (EC.n c <=? EC.sig_s sg) = false) as ->.
  { apply orb_false_iff. split; [apply Z.ltb_ge|apply Z.leb_gt]; lia. }
  assert (EC.mulAdd c ((invm (EC.sig_s sg) (EC.n c) * e) mod EC.n c)
                    (EC.mul c d (EC.g c))
                    ((invm (EC.sig_s sg) (EC.n c) * EC.sig_r sg) mod EC.n c)
          = EC.mul c k (EC.g c)) as ->.
  { unfold EC.mulAdd.
    set (u1 := (invm (EC.sig_s sg) (EC.n c) * e) mod EC.n c).
    set (u2 := (invm (EC.sig_s sg) (EC.n c) * EC.sig_r sg) mod EC.n c).
    assert (0 <= u1) by (apply Z.mod_pos_bound; lia).
    assert (0 <= u2) by (apply Z.mod_pos_bound; lia).
    rewrite <- (@mul_mul c L), <- (@mul_add c L) by (assumption || nia).
    rewrite <- (@mul_mod_n c L (u1 + u2 * d)) by nia.
    f_equal. subst u1 u2.
    apply (@verify_scalar (EC.n c) k (invm k (EC.n c)) (EC.sig_r sg) d e
                          (EC.sig_s sg) (invm (EC.sig_s sg) (EC.n c)));
      try lia; try assumption.
    - apply invm_spec; [lia|]. apply (n_coprime L). lia.
    - apply invm_spec; [lia|]. now apply (n_coprime L). }
  rewrite Ik. apply Z.eqb_eq. now symmetry.
Qed.

Lemma deriveSharedKey_of_keys (privA privB pubB : Buffer) :
  0 < EC.keyFromPrivate c privA < EC.n c ->
  LibCrypto.private2public c privB = Normal pubB ->
  LibCrypto.deriveSharedKey c privA pubB
  = Normal (toBuffer
              (EC.getX c (EC.mul c ((EC.keyFromPrivate c privA
                                     * EC.keyFromPrivate c privB) mod EC.n c)
                                 (EC.g c)))).
Proof.
  intros Ha HB.
  apply (@private2public_inv c L) in HB as (Hb & Ib & ->).
  unfold LibCrypto.deriveSharedKey, EC.keyFromPublic.
  pose proof (@g_valid c L) as Vg.
  rewrite (decode_encode L) by (assumption || now apply (@mul_valid c L)).
  now rewrite (@shared_point c L) by assumption.
Qed.

(** X11.  What [encryptObjectForParty] makes for a party can be read by
    that party and needs nothing but the result and the party's private
    key: from the owner's public key in the result the party derives the
    shared secret, from the [hkdf] record the same key, and [decrypt] with
    the envelope's algorithm and iv returns the bytes that were
    encrypted.  The call itself always resolves, after drawing 32 bytes of
    entropy for the salt and 16 for the iv. *)
Theorem encryptObjectForParty_readable
        (objectJson : jsval) (P : Buffer) (selfKeyPair : KeyPair)
        (partyPrivateKey partyPublicKey : Buffer) (w : world) :
  str2buf objectJson JUndefined = Normal (JBuffer P) ->
  LibCrypto.private2public c (kp_privateKey selfKeyPair)
  = Normal (kp_publicKey selfKeyPair) ->
  LibCrypto.private2public c partyPrivateKey = Normal partyPublicKey ->
  exists tag env shared sk,
    LibCrypto.encryptObjectForParty c objectJson selfKeyPair partyPublicKey w
    = (Normal tag, crypto.advance 16 (crypto.advance 32 w))
    /\ encryptedTag tag = Some env
    /\ LibCrypto.deriveSharedKey c partyPrivateKey (ownerPubKey tag)
       = Normal shared
    /\ (forall w2,
           LibCrypto.deriveSecretKey shared
             (Some (options_of_hkdf (tag_hkdf tag))) w2
           = (Normal sk, w2))
    /\ (forall w3,
           LibCrypto.decrypt (JBuffer (cipherText env)) (sk_key sk)
                             (Some (options_of env)) w3
           = (Normal (Some P), w3)).
Proof.
  intros HP HA HB.
  pose proof (@private2public_inv c L _ _ HA) as (Ha & _ & _).
  pose proof (@private2public_inv c L _ _ HB) as (Hb & _ & _).
  pose proof (@deriveSharedKey_of_keys _ _ _ Ha HB) as HsA.
  pose proof (@deriveSharedKey_of_keys _ _ _ Hb HA) as HsB.
  rewrite (Z.mul_comm (EC.keyFromPrivate c partyPrivateKey)) in HsB.
  set (shared := toBuffer _) in HsA, HsB.
  destruct (@deriveSecretKey_default shared w) as (k & Hsk & Hlen & Hk).
  unfold LibCrypto.encryptObjectForParty. js_step.
  rewrite HsA, Hsk. cbn [sk_key sk_hkdf].
  rewrite (@encrypt_default objectJson P k (crypto.advance 32 w) HP Hlen).
  eexists _, _, shared,
    {| sk_key := k;
       sk_hkdf := {| hashAgl := JString "sha256";
                     hp_salt := toString_hex (crypto.draw 32 w);
                     hp_info := JString "file-force";
                     hp_size := 32 |} |}.
  split; [reflexivity|].
  cbn [encryptedTag ownerPubKey tag_hkdf].
  split; [reflexivity|]. split; [exact HsB|]. split.
  - intros w2. apply deriveSecretKey_from_record; try reflexivity.
    + intros E. apply (f_equal (@List.length byte)) in E.
      rewrite draw_length in E. discriminate E.
    + discriminate.
    + exact Hk.
  - intros w3. cbn [sk_key cipherText].
    change (options_of _)
      with {| algorithm := JString "aes-256-ctr";
              iv := JString (toString_hex (crypto.draw 16 (crypto.advance 32 w)));
              cipherEncoding := JUndefined |}.
    rewrite decrypt_aes256ctr by (assumption || apply draw_length).
    now rewrite ctr_from_involutive.
Qed.

End SignaturesAndTags.

Lemma sign_verify_witness :
  LibCrypto.verify tiny
    {| EC.sig_r := 3; EC.sig_s := 1; EC.recoveryParam := 3 |}
    [x10] [x04; x0c; x0c]
  = Normal true
  /\ 0 < 3 < EC.n tiny /\ 0 < 1 < EC.n tiny /\ 0 <= 3 <= 3.
Proof.
  apply (@sign_verify tiny tiny_laws 5%nat [x10] [x05] [x04; x0c; x0c]
                      {| EC.sig_r := 3; EC.sig_s := 1; EC.recoveryParam := 3 |});
    reflexivity.
Defined.

Definition tiny_pair : KeyPair :=
  {| kp_privateKey := [x05]; kp_publicKey := [x04; x0c; x0c] |}.

Lemma encryptObjectForParty_readable_witness :
  exists tag env shared sk,
    LibCrypto.encryptObjectForParty tiny (JString "{}") tiny_pair
                                    [x04; x28; x19] world0
    = (Normal tag, crypto.advance 16 (crypto.advance 32 world0))
    /\ encryptedTag tag = Some env
    /\ LibCrypto.deriveSharedKey tiny [x0b] (ownerPubKey tag) = Normal shared
    /\ (forall w2,
           LibCrypto.deriveSecretKey shared
             (Some (options_of_hkdf (tag_hkdf tag))) w2
           = (Normal sk, w2))
    /\ (forall w3,
           LibCrypto.decrypt (JBuffer (cipherText env)) (sk_key sk)
                             (Some (options_of env)) w3
           = (Normal (Some (utf8_encode "{}")), w3)).
Proof.
  apply (@encryptObjectForParty_readable tiny tiny_laws (JString "{}")
           (utf8_encode "{}") tiny_pair [x0b] [x04; x28; x19] world0);
    reflexivity.
Defined.

Close Scope Z_scope.

(* ================================================================== *)
(** ** Further properties of the harvester *)

Definition is_report (l : Harvester.line) : bool :=
  match l with
  | Harvester.PullReport _ _ _ => true
  | _ => false
  end.

(** The number of finished pulls the console shows. *)
Definition reported (out : list Harvester.line) : nat :=
  List.length (filter is_report out).

(** The hashes the handler of a mode hands to [pull] for one event. *)
Definition hashes_of (bn58 : option Z -> string) (m : string)
           (ev : Harvester.event) : list string :=
  if String.eqb m "file" then [bn58 (Harvester.args_ipfs ev)]
  else if String.eqb m "ectag" then [bn58 (Harvester.args_ipfs ev)]
  else if String.eqb m "ecdtag"
       then [bn58 (Harvester.args_ipfsOrigin ev);
             bn58 (Harvester.args_ipfsNew ev)]
       else [].

(** The hashes a callback of the event loop makes the script request. *)
Definition requested (bn58 : option Z -> string) (m : string)
           (t : Harvester.tick) : list string :=
  match t with
  | Harvester.Deliver None ev => hashes_of bn58 m ev
  | _ => []
  end.

Lemma remove_nth_length (A : Type) (l : list A) :
  forall (i : nat) (x : A),
    nth_error l i = Some x ->
    S (List.length (Harvester.remove_nth i l)) = List.length l.
Proof.
  induction l as [|y rest IH]; intros [|i] x H; cbn in H; try discriminate.
  - reflexivity.
  - cbn [Harvester.remove_nth List.length]. f_equal. now apply (IH i x).
Qed.

Lemma reported_app (a b : list Harvester.line) :
  reported (a ++ b) = reported a + reported b.
Proof. unfold reported. now rewrite filter_app, length_app. Qed.

(** What a delivered event does to a running process. *)
Lemma handler_effect (bn58 : option Z -> string) (m : string)
      (entry : Harvester.mode_entry) (ev : Harvester.event)
      (st : Harvester.state) :
  Harvester.modeToEvent bn58 m = Some entry ->
  Harvester.pulls (Harvester.handler entry ev st)
  = Harvester.pulls st ++ hashes_of bn58 m ev
  /\ Harvester.pending (Harvester.handler entry ev st)
     = Harvester.pending st ++ map (fun h => (h, ev)) (hashes_of bn58 m ev)
  /\ Harvester.output (Harvester.handler entry ev st) = Harvester.output st
  /\ Harvester.uncaught (Harvester.handler entry ev st) = Harvester.uncaught st.
Proof.
  unfold Harvester.modeToEvent, hashes_of. intros H.
  destruct (String.eqb m "file");
    [injection H as <-; cbn; repeat split|].
  destruct (String.eqb m "ectag");
    [injection H as <-; cbn; repeat split|].
  destruct (String.eqb m "ecdtag"); [|discriminate H].
  injection H as <-. cbn. rewrite <- !app_assoc. repeat split.
Qed.

Lemma step_accounts (bn58 : option Z -> string) (opts : Harvester.options)
      (st : Harvester.state) (t : Harvester.tick) :
  List.length (Harvester.pulls st)
  = List.length (Harvester.pending st) + reported (Harvester.output st) ->
  List.length (Harvester.pulls (Harvester.step bn58 opts st t))
  = List.length (Harvester.pending (Harvester.step bn58 opts st t))
    + reported (Harvester.output (Harvester.step bn58 opts st t)).
Proof.
  intros Hinv. unfold Harvester.step.
  destruct (Harvester.uncaught st); [exact Hinv|].
  destruct t as [[e|] ev|i error done]; [exact Hinv| |].
  - destruct (Harvester.modeToEvent bn58 (Harvester.mode opts)) as [entry|] eqn:Em;
      [|exact Hinv].
    destruct (@handler_effect bn58 _ entry ev st Em) as (-> & -> & -> & _).
    rewrite !length_app, length_map. lia.
  - destruct (nth_error (Harvester.pending st) i) as [[h ev]|] eqn:En;
      [|exact Hinv].
    apply remove_nth_length in En.
    unfold Harvester.pull_callback.
    destruct error as [e|]; [destruct (Harvester.fail_fast opts)|];
      cbn [Harvester.pulls Harvester.pending Harvester.output];
      rewrite reported_app; cbn; lia.
Qed.

(** X12.  Every pull the harvester has requested is either still pending
    or reported on the console, once: at any point of any run the number
    of requests is the number of pending callbacks plus the number of
    report lines, with or without fail-fast and whatever the callbacks
    deliver. *)
Theorem harvester_accounts_for_every_pull
        (bn58 : option Z -> string) (lastBlock : Z) (opts : Harvester.options)
        (ticks : list Harvester.tick) :
  List.length (Harvester.pulls (Harvester.run bn58 lastBlock opts ticks))
  = List.length (Harvester.pending (Harvester.run bn58 lastBlock opts ticks))
    + reported (Harvester.output (Harvester.run bn58 lastBlock opts ticks)).
Proof.
  unfold Harvester.run.
  assert (forall st,
             List.length (Harvester.pulls st)
             = List.length (Harvester.pending st) + reported (Harvester.output st) ->
             List.length (Harvester.pulls (fold_left (Harvester.step bn58 opts) ticks st))
             = List.length (Harvester.pending (fold_left (Harvester.step bn58 opts) ticks st))
               + reported (Harvester.output (fold_left (Harvester.step bn58 opts) ticks st)))
    as Hgen.
  { induction ticks as [|t rest IH]; intros st Hinv; [exact Hinv|].
    cbn [fold_left]. apply IH. now apply step_accounts. }
  apply Hgen. reflexivity.
Qed.

Lemma step_requests (bn58 : option Z -> string) (opts : Harvester.options)
      (st : Harvester.state) (t : Harvester.tick) (entry : Harvester.mode_entry) :
  Harvester.fail_fast opts = false ->
  Harvester.modeToEvent bn58 (Harvester.mode opts) = Some entry ->
  Harvester.uncaught st = None ->
  Harvester.uncaught (Harvester.step bn58 opts st t) = None
  /\ Harvester.pulls (Harvester.step bn58 opts st t)
     = Harvester.pulls st ++ requested bn58 (Harvester.mode opts) t.
Proof.
  intros Hff Hm Hrun. unfold Harvester.step. rewrite Hrun.
  destruct t as [[e|] ev|i error done]; cbn [requested].
  - now rewrite app_nil_r.
  - rewrite Hm.
    destruct (@handler_effect bn58 _ entry ev st Hm) as (-> & _ & _ & ->).
    now split.
  - rewrite app_nil_r.
    destruct (nth_error (Harvester.pending st) i) as [[h ev]|]; [|now split].
    unfold Harvester.pull_callback. rewrite Hff.
    destruct error; cbn [Harvester.pulls Harvester.uncaught]; now split.
Qed.

(** X13.  Without fail-fast the harvester never ends on its own and what
    it requests depends on the deliveries alone: after any run, the pulls
    requested are the hashes of the events delivered without error, in
    the order of delivery (one per event, two per delegation), whatever
    the pulls themselves reported. *)
Theorem harvester_pulls_follow_deliveries
        (bn58 : option Z -> string) (lastBlock : Z) (opts : Harvester.options)
        (entry : Harvester.mode_entry) (ticks : list Harvester.tick) :
  Harvester.fail_fast opts = false ->
  Harvester.modeToEvent bn58 (Harvester.mode opts) = Some entry ->
  Harvester.uncaught (Harvester.run bn58 lastBlock opts ticks) = None
  /\ Harvester.pulls (Harvester.run bn58 lastBlock opts ticks)
     = flat_map (requested bn58 (Harvester.mode opts)) ticks.
Proof.
  intros Hff Hm. unfold Harvester.run.
  assert (forall st,
             Harvester.uncaught st = None ->
             Harvester.uncaught (fold_left (Harvester.step bn58 opts) ticks st) = None
             /\ Harvester.pulls (fold_left (Harvester.step bn58 opts) ticks st)
                = Harvester.pulls st
                  ++ flat_map (requested bn58 (Harvester.mode opts)) ticks)
    as Hgen.
  { induction ticks as [|t rest IH]; intros st Hrun; cbn [fold_left flat_map].
    - now rewrite app_nil_r.
    - destruct (@step_requests bn58 opts st t entry Hff Hm Hrun) as [Hu Hp].
      destruct (IH _ Hu) as [Hu' Hp'].
      split; [exact Hu'|]. now rewrite Hp', Hp, <- app_assoc. }
  apply (Hgen (Harvester.start bn58 lastBlock opts)).
  unfold Harvester.start. cbn [Harvester.uncaught]. now rewrite Hm.
Qed.

Lemma harvester_pulls_follow_deliveries_witness :
  Harvester.uncaught
    (Harvester.run show_hash 1000 ecdtag_options
       [Harvester.Deliver None (Harvester.TagDelegated 990 7 8);
        Harvester.PullDone 1 (Some "unavailable"%string) EmptyString;
        Harvester.Deliver (Some "ledger error"%string)
                          (Harvester.TagDelegated 991 1 2);
        Harvester.Deliver None (Harvester.TagDelegated 992 9 10)]) = None
  /\ Harvester.pulls
       (Harvester.run show_hash 1000 ecdtag_options
          [Harvester.Deliver None (Harvester.TagDelegated 990 7 8);
           Harvester.PullDone 1 (Some "unavailable"%string) EmptyString;
           Harvester.Deliver (Some "ledger error"%string)
                             (Harvester.TagDelegated 991 1 2);
           Harvester.Deliver None (Harvester.TagDelegated 992 9 10)])
     = flat_map (requested show_hash (Harvester.mode ecdtag_options))
         [Harvester.Deliver None (Harvester.TagDelegated 990 7 8);
          Harvester.PullDone 1 (Some "unavailable"%string) EmptyString;
          Harvester.Deliver (Some "ledger error"%string)
                            (Harvester.TagDelegated 991 1 2);
          Harvester.Deliver None (Harvester.TagDelegated 992 9 10)].
Proof.
  apply (@harvester_pulls_follow_deliveries show_hash 1000 ecdtag_options
           {| Harvester.me_event := Harvester.EcTagDelegated;
              Harvester.handler := fun ev st =>
                Harvester.pull show_hash (Harvester.args_ipfsNew ev) ev
                  (Harvester.pull show_hash (Harvester.args_ipfsOrigin ev) ev st) |});
    reflexivity.
Defined.




(* ================================================================== *)
(** ** The watch commands *)

(** A delivery without error. *)
Definition delivered (d : option string * Harvester.event) : bool :=
  match fst d with
  | None => true
  | Some _ => false
  end.

Lemma fold_print_hash (bn58 : option Z -> string)
      (ds : list (option string * Harvester.event)) :
  forall out,
    fold_left (CmdIpfs.print_hash bn58) ds out
    = out ++ map (fun d => CmdIpfs.Hash (bn58 (Harvester.args_ipfs (snd d))))
                 (filter delivered ds).
Proof.
  induction ds as [|[[e|] ev] rest IH]; intros out; cbn [fold_left filter].
  - now rewrite app_nil_r.
  - unfold delivered at 1, CmdIpfs.print_hash at 2. cbn [fst]. apply IH.
  - unfold delivered at 1, CmdIpfs.print_hash at 2. cbn [fst snd map].
    rewrite IH, <- app_assoc. reflexivity.
Qed.

Lemma fold_print_transfer (bn58 : option Z -> string)
      (ds : list (option string * Harvester.event)) :
  forall out,
    fold_left (CmdIpfs.print_transfer bn58) ds out
    = out ++ map (fun d => CmdIpfs.Transfer
                             (bn58 (Harvester.args_ipfsOrigin (snd d)))
                             (bn58 (Harvester.args_ipfsNew (snd d))))
                 (filter delivered ds).
Proof.
  induction ds as [|[[e|] ev] rest IH]; intros out; cbn [fold_left filter].
  - now rewrite app_nil_r.
  - unfold delivered at 1, CmdIpfs.print_transfer at 2. cbn [fst]. apply IH.
  - unfold delivered at 1, CmdIpfs.print_transfer at 2. cbn [fst snd map].
    rewrite IH, <- app_assoc. reflexivity.
Qed.

(** X15.  Each watch command writes the block range once and then one
    line per event delivered without error, in the order of delivery: the
    hash for [fwatch] and [ecwatch], both hashes for [ecdwatch].  A
    delivery with an error leaves no trace.  The range starts at the
    [fromBlock] asked for, except that block 0, like no [fromBlock] at
    all, starts it [EVENT_OFFSET] blocks before the last block. *)
Theorem watch_prints_deliveries
        (bn58 : option Z -> string) (lastBlock EVENT_OFFSET : Z)
        (fromBlock : option Z)
        (ds : list (option string * Harvester.event)) :
  CmdIpfs.printed (CmdIpfs.fwatch bn58 lastBlock EVENT_OFFSET fromBlock ds)
  = CmdIpfs.Watching
      (CmdIpfs.calculateStartBlockOffset lastBlock EVENT_OFFSET fromBlock)
    :: map (fun d => CmdIpfs.Hash (bn58 (Harvester.args_ipfs (snd d))))
           (filter delivered ds)
  /\ CmdIpfs.printed (CmdIpfs.ecwatch bn58 lastBlock EVENT_OFFSET fromBlock ds)
     = CmdIpfs.printed (CmdIpfs.fwatch bn58 lastBlock EVENT_OFFSET fromBlock ds)
  /\ CmdIpfs.printed (CmdIpfs.ecdwatch bn58 lastBlock EVENT_OFFSET fromBlock ds)
     = CmdIpfs.Watching
         (CmdIpfs.calculateStartBlockOffset lastBlock EVENT_OFFSET fromBlock)
       :: map (fun d => CmdIpfs.Transfer
                          (bn58 (Harvester.args_ipfsOrigin (snd d)))
                          (bn58 (Harvester.args_ipfsNew (snd d))))
              (filter delivered ds)
  /\ CmdIpfs.calculateStartBlockOffset lastBlock EVENT_OFFSET fromBlock
     = match fromBlock with
       | Some (Zpos b) => Zpos b
       | Some (Zneg b) => Zneg b
       | _ => (lastBlock - EVENT_OFFSET)%Z
       end.
Proof.
  unfold CmdIpfs.fwatch, CmdIpfs.ecwatch, CmdIpfs.ecdwatch.
  cbn [CmdIpfs.printed].
  rewrite fold_print_hash, fold_print_transfer.
  repeat split.
  destruct fromBlock as [[|b|b]|]; reflexivity.
Qed.
